(** * display-controller

    A shallow embedding of [display-controller.py]: the display records, the
    command builder [DisplayController.configure], the setup loop with
    [rotate], the configuration store [JsonUtils], the matching of the stored
    displays against the connected ones in [main], and the status parser
    [DisplayParser] with the grammar of a connected-display line.

    Python [str] values are Rocq strings, one [ascii] for one character, so
    the texts are those of characters below 256.  Python [int]s are [Z] where
    they can be negative and [nat] where they count.  A Python call that
    raises is an [option] that is [None].  The commands the program runs and
    the answers it reads are arguments and results of the functions here. *)

From Stdlib Require Import String Ascii List ZArith Lia Bool.
From stdpp Require Import base option list gmap strings.
Import ListNotations.

Local Open Scope string_scope.
Local Open Scope Z_scope.
Local Open Scope list_scope.

Local Set Warnings "-register-all".

(** ** Data model *)

(** [class DisplayMode(Enum)] *)
Inductive DisplayMode : Type :=
| CLONE
| INTERNAL_ONLY
| INTERNAL_EXTEND
| EXTERNAL_ONLY.

Definition DisplayMode_eqb (a b : DisplayMode) : bool :=
  match a, b with
  | CLONE, CLONE | INTERNAL_ONLY, INTERNAL_ONLY
  | INTERNAL_EXTEND, INTERNAL_EXTEND | EXTERNAL_ONLY, EXTERNAL_ONLY => true
  | _, _ => false
  end.

(** [class Offset] *)
Record Offset : Type := mkOffset {
  direction : string;
  offset : string
}.

(** [class Display]; [resolution], [x_offset] and [y_offset] are [None] for a
    connected display without an active mode.  [Display.__init__] replaces an
    [edid] of [None] by the empty string, so the field is a plain string. *)
Record Display : Type := mkDisplay {
  name : string;
  resolution : option string;
  x_offset : option Offset;
  y_offset : option Offset;
  edid : string
}.

(** [Display.__init__] *)
Definition Display_init (n : string) (r : option string)
    (x y : option Offset) (e : option string) : Display :=
  mkDisplay n r x y (match e with None => "" | Some s => s end).

(** [class DisplayList] *)
Record DisplayList : Type := mkDisplayList {
  displays : list Display
}.

#[global] Instance Offset_eq_dec : EqDecision Offset.
Proof. solve_decision. Defined.

#[global] Instance Display_eq_dec : EqDecision Display.
Proof. solve_decision. Defined.

(** [d'] is [d] but for its name. *)
Definition same_but_name (d d' : Display) : Prop :=
  resolution d' = resolution d /\ x_offset d' = x_offset d /\
  y_offset d' = y_offset d /\ edid d' = edid d.

(** [d'] is [d] but for its EDID. *)
Definition same_but_edid (d d' : Display) : Prop :=
  name d' = name d /\ resolution d' = resolution d /\
  x_offset d' = x_offset d /\ y_offset d' = y_offset d.

Definition set_name (d : Display) (n : string) : Display :=
  mkDisplay n (resolution d) (x_offset d) (y_offset d) (edid d).

Definition set_edid (d : Display) (e : string) : Display :=
  mkDisplay (name d) (resolution d) (x_offset d) (y_offset d) e.

(** ** Python sequences *)

(** [l[i]]: a negative index counts from the end, anything out of range
    raises [IndexError]. *)
Definition py_index {A : Type} (l : list A) (i : Z) : option A :=
  let n := Z.of_nat (length l) in
  if 0 <=? i then l !! Z.to_nat i
  else if 0 <=? i + n then l !! Z.to_nat (i + n)
  else None.

(** The bound a slice puts on one of its ends: negative counts from the end,
    and the result is clamped to [0 .. len]. *)
Definition py_clamp (len i : Z) : nat :=
  Z.to_nat (Z.min len (Z.max 0 (if i <? 0 then i + len else i))).

(** [l[i:]] *)
Definition py_slice_from {A : Type} (l : list A) (i : Z) : list A :=
  drop (py_clamp (Z.of_nat (length l)) i) l.

(** [l[:i]] *)
Definition py_slice_to {A : Type} (l : list A) (i : Z) : list A :=
  take (py_clamp (Z.of_nat (length l)) i) l.

(** ** Command Builder: [DisplayController.configure] *)

(** One value per [command += ...] statement of the loop body. *)
Inductive fragment : Type :=
| Output (n : string)              (* " --output {}" *)
| PrimaryAuto                      (* " --primary --auto" *)
| AutoSameAs (n : string)          (* " --auto --same-as {}" *)
| Off                              (* " --off" *)
| AutoDirOf (dir n : string).      (* " --auto --{}-of {}" *)

Definition render (f : fragment) : string :=
  match f with
  | Output n => " --output " +:+ n
  | PrimaryAuto => " --primary --auto"
  | AutoSameAs n => " --auto --same-as " +:+ n
  | Off => " --off"
  | AutoDirOf dir n => " --auto --" +:+ dir +:+ "-of " +:+ n
  end.

(** The names a fragment positions its output against. *)
Definition fragment_refs (f : fragment) : list string :=
  match f with
  | AutoSameAs n => [n]
  | AutoDirOf _ n => [n]
  | _ => []
  end.

(** A directive is what one iteration of the loop appends to the command. *)
Abbreviation directive := (list fragment).

Definition directive_refs (d : directive) : list string :=
  concat (map fragment_refs d).

Section Configure.
Variable all_displays : list Display.
Variable display_mode : DisplayMode.
Variable extend_all : bool.
Variable dir : string.

(** [" --auto --{}-of {}".format(direction, displays[idx - 1].name)] *)
Definition auto_dir_of (idx : Z) : option directive :=
  prev ← py_index all_displays (idx - 1);
  Some [AutoDirOf dir (name prev)].

(** [" --auto --same-as {}".format(displays[idx - 1].name)] *)
Definition auto_same_as (idx : Z) : option directive :=
  prev ← py_index all_displays (idx - 1);
  Some [AutoSameAs (name prev)].

(** The first statement of the body: [if display_mode == CLONE]. *)
Definition clone_part (idx : Z) : option directive :=
  if DisplayMode_eqb display_mode CLONE then
    if idx =? 0 then Some [PrimaryAuto] else auto_same_as idx
  else Some [].

(** The [if]/[elif] chain on the three other modes.  In the EXTERNAL_ONLY
    branch the test [idx == 0] is an [if] of its own, followed by a second
    [if idx == 1 / elif extend_all / else] statement. *)
Definition mode_part (idx : Z) : option directive :=
  if DisplayMode_eqb display_mode INTERNAL_ONLY then
    if idx =? 0 then Some [PrimaryAuto] else Some [Off]
  else if DisplayMode_eqb display_mode EXTERNAL_ONLY then
    first ← Some (if idx =? 0 then [Off] else []);
    second ← (if idx =? 1 then Some [PrimaryAuto]
              else if extend_all then auto_dir_of idx
              else Some [Off]);
    Some (first ++ second)
  else if DisplayMode_eqb display_mode INTERNAL_EXTEND then
    if idx =? 0 then Some [PrimaryAuto]
    else if idx =? 1 then auto_dir_of idx
    else if extend_all then auto_dir_of idx
    else Some [Off]
  else Some [].

(** The loop body for [(idx, display)]. *)
Definition configure_body (idx : Z) (display : Display) : option directive :=
  c ← clone_part idx;
  m ← mode_part idx;
  Some (Output (name display) :: c ++ m).

(** [for idx, display in enumerate(displays)], started at [idx]. *)
Fixpoint configure_loop (idx : Z) (rest : list Display) : option (list directive) :=
  match rest with
  | [] => Some []
  | display :: rest' =>
      d ← configure_body idx display;
      ds ← configure_loop (idx + 1) rest';
      Some (d :: ds)
  end.
End Configure.

(** The directives of one call, one per pass through the loop. *)
Definition directives (ds : list Display) (display_mode : DisplayMode)
    (extend_all : bool) (dir : string) : option (list directive) :=
  configure_loop ds display_mode extend_all dir 0 ds.

Definition render_directive (d : directive) : string :=
  fold_right (fun f acc => render f +:+ acc) "" d.

(** The command handed to [ProcessUtils.run]. *)
Definition configure (ds : list Display) (display_mode : DisplayMode)
    (extend_all : bool) (dir : string) : option string :=
  dvs ← directives ds display_mode extend_all dir;
  Some ("xrandr" +:+ fold_right (fun d acc => render_directive d +:+ acc) "" dvs).

(** The shapes the specification names. *)
Definition powered_off (d : Display) : directive := [Output (name d); Off].
Definition primary_auto (d : Display) : directive := [Output (name d); PrimaryAuto].
Definition positioned (d : Display) (dir : string) (prev : Display) : directive :=
  [Output (name d); AutoDirOf dir (name prev)].
Definition mirrored (d : Display) (prev : Display) : directive :=
  [Output (name d); AutoSameAs (name prev)].

(** A directive at index [i] depends on earlier displays only: every name it
    positions its output against is the name of a display before [i]. *)
Definition refers_back (ds : list Display) (i : nat) (dv : directive) : Prop :=
  forall n : string, n ∈ directive_refs dv ->
    exists (j : nat) (p : Display), (j < i)%nat /\ ds !! j = Some p /\ name p = n.

Definition active (n : string) : Display :=
  mkDisplay n (Some "1920x1080") (Some (mkOffset "+" "0")) (Some (mkOffset "+" "0")) "".

Definition inactive (n : string) : Display :=
  mkDisplay n None None None "".

Definition ext_demo : list Display := [active "eDP-1"; active "HDMI-1"].
Definition three_demo : list Display := [active "eDP-1"; active "HDMI-1"; active "DP-1"].

(** ** Setup Wizard: [rotate] and the [--setup] branch of [main] *)

(** [def rotate(l, n): return l[-n:] + l[:-n]] *)
Definition rotate {A : Type} (l : list A) (n : Z) : list A :=
  py_slice_from l (- n) ++ py_slice_to l (- n).

(** The list after [k] rejections: [display_list = rotate(display_list, 1)],
    [k] times. *)
Definition candidate (l : list Display) (k : nat) : list Display :=
  Nat.iter k (fun display_list => rotate display_list 1) l.

(** What the wizard has done once the answers typed so far are used up. *)
Record SetupRun : Type := mkSetupRun {
  proposals : list (list Display);     (* the lists handed to [configure], oldest first *)
  accepted : option (list Display)     (* the list that was persisted, if any *)
}.

(** The two nested [while True] loops, driven by the lines that [input]
    returns.  [display_list] has just been handed to [configure]; an answer
    other than [y] and [n] prompts again, [n] rotates and configures the next
    candidate, [y] persists.  With no answer left the program waits. *)
Fixpoint setup_loop (display_list : list Display) (answers : list string) : SetupRun :=
  match answers with
  | [] => mkSetupRun [display_list] None
  | correct_order :: answers' =>
      if String.eqb "y" correct_order then mkSetupRun [display_list] (Some display_list)
      else if String.eqb "n" correct_order then
        let r := setup_loop (rotate display_list 1) answers' in
        mkSetupRun (display_list :: proposals r) (accepted r)
      else setup_loop display_list answers'
  end.

(** ** Configuration Store: [JsonUtils] *)

(** A JSON document, as [json.load] returns it and [json.dump] takes it.  An
    object keeps its members in document order; of the numbers only the
    integers are kept, the store writes none. *)
Inductive json : Type :=
| JNull
| JBool (b : bool)
| JNumber (z : Z)
| JString (s : string)
| JArray (items : list json)
| JObject (members : list (string * json)).

(** [json_data[key]]: the last member of that name in an object ([json.load]
    lets a later duplicate win); [KeyError] or [TypeError] otherwise. *)
Fixpoint members_get (key : string) (members : list (string * json)) : option json :=
  match members with
  | [] => None
  | (k, v) :: rest =>
      match members_get key rest with
      | Some w => Some w
      | None => if String.eqb k key then Some v else None
      end
  end.

Definition getitem (json_data : json) (key : string) : option json :=
  match json_data with
  | JObject members => members_get key members
  | _ => None
  end.

(** The objects the [from_json] class methods build.  Python checks no
    annotation, so an attribute holds whatever value the document has. *)
Record RawOffset : Type := mkRawOffset {
  raw_direction : json;
  raw_offset : json
}.

Record RawDisplay : Type := mkRawDisplay {
  raw_name : json;
  raw_resolution : json;
  raw_x_offset : RawOffset;
  raw_y_offset : RawOffset;
  raw_edid : json
}.

(** [Offset.from_json] calls [cls] with the members of [json_data] as keyword
    arguments: the argument has to be a mapping whose keys are exactly the two
    parameters of [Offset.__init__]. *)
Definition Offset_from_json (json_data : json) : option RawOffset :=
  match json_data with
  | JObject members =>
      if forallb (fun kv => String.eqb (fst kv) "direction" || String.eqb (fst kv) "offset") members
      then
        d ← getitem json_data "direction";
        o ← getitem json_data "offset";
        Some (mkRawOffset d o)
      else None
  | _ => None
  end.

(** [Display.from_json], with the [edid == None] test of [Display.__init__]. *)
Definition Display_from_json (json_data : json) : option RawDisplay :=
  xj ← getitem json_data "x_offset";
  x_offset ← Offset_from_json xj;
  yj ← getitem json_data "y_offset";
  y_offset ← Offset_from_json yj;
  name ← getitem json_data "name";
  resolution ← getitem json_data "resolution";
  edid ← getitem json_data "edid";
  Some (mkRawDisplay name resolution x_offset y_offset
          (match edid with JNull => JString "" | _ => edid end)).

(** [DisplayList.from_json]: [list(map(Display.from_json, json_data["displays"]))].
    [map] over a value that is not iterable raises; iterating an object or a
    string yields keys or characters, on which [Display.from_json] raises at
    its first subscript. *)
Definition DisplayList_from_json (json_data : json) : option (list RawDisplay) :=
  dj ← getitem json_data "displays";
  match dj with
  | JArray items => mapM Display_from_json items
  | JObject [] | JString "" => Some []
  | _ => None
  end.

(** Reading the objects at the types the annotations promise. *)
Definition as_str (v : json) : option string :=
  match v with
  | JString s => Some s
  | _ => None
  end.

Definition as_opt_str (v : json) : option (option string) :=
  match v with
  | JNull => Some None
  | JString s => Some (Some s)
  | _ => None
  end.

Definition typed_Offset (o : RawOffset) : option Offset :=
  d ← as_str (raw_direction o);
  v ← as_str (raw_offset o);
  Some (mkOffset d v).

Definition typed_Display (d : RawDisplay) : option Display :=
  n ← as_str (raw_name d);
  r ← as_opt_str (raw_resolution d);
  x ← typed_Offset (raw_x_offset d);
  y ← typed_Offset (raw_y_offset d);
  e ← as_str (raw_edid d);
  Some (mkDisplay n r (Some x) (Some y) e).

(** The result of reading the stored document.  [Untyped] marks a document
    that Python accepts but that puts a value of another type where the
    annotations promise a string. *)
Inductive outcome (A : Type) : Type :=
| Returns (a : A)
| Raises
| Untyped.
Arguments Returns {A} a.
Arguments Raises {A}.
Arguments Untyped {A}.

Definition load_DisplayList (doc : json) : outcome (option DisplayList) :=
  match DisplayList_from_json doc with
  | None => Raises
  | Some raw =>
      match mapM typed_Display raw with
      | Some ds => Returns (Some (mkDisplayList ds))
      | None => Untyped
      end
  end.

(** What [json.dump(..., default=lambda o: o.__dict__)] writes for each
    object: its attributes in the order [__init__] assigns them. *)
Definition opt_str_to_json (o : option string) : json :=
  match o with
  | None => JNull
  | Some s => JString s
  end.

Definition Offset_to_json (o : Offset) : json :=
  JObject [("direction", JString (direction o)); ("offset", JString (offset o))].

Definition opt_Offset_to_json (o : option Offset) : json :=
  match o with
  | None => JNull
  | Some v => Offset_to_json v
  end.

Definition Display_to_json (d : Display) : json :=
  JObject [("name", JString (name d));
           ("resolution", opt_str_to_json (resolution d));
           ("x_offset", opt_Offset_to_json (x_offset d));
           ("y_offset", opt_Offset_to_json (y_offset d));
           ("edid", JString (edid d))].

Definition DisplayList_to_json (dl : DisplayList) : json :=
  JObject [("displays", JArray (map Display_to_json (displays dl)))].

(** The part of the machine the store touches: the home directory and the
    regular files, each with the document its text encodes.  Directories are
    taken to exist, and files that hold no JSON text are left out. *)
Record World : Type := mkWorld {
  home : string;
  files : gmap string json
}.

(** [path.expanduser('~') + '/.config/display-switcher.conf'] *)
Definition file_name (w : World) : string :=
  home w +:+ "/.config/display-switcher.conf".

(** [JsonUtils.to_json]: the world after the call. *)
Definition to_json (w : World) (dl : DisplayList) : World :=
  mkWorld (home w) (<[file_name w := DisplayList_to_json dl]> (files w)).

(** [JsonUtils.from_json]: the world after the call and what it returns. *)
Definition from_json (w : World) : World * outcome (option DisplayList) :=
  match files w !! file_name w with
  | None => (w, Returns None)
  | Some doc => (w, load_DisplayList doc)
  end.

(** A display with an active mode: resolution and both offsets present. *)
Definition fully_active (d : Display) : Prop :=
  is_Some (resolution d) /\ is_Some (x_offset d) /\ is_Some (y_offset d).

(** A display written without one of its offsets. *)
Definition lacks_offset (d : Display) : Prop :=
  x_offset d = None \/ y_offset d = None.

(** A home directory without a configuration file. *)
Definition demo_world : World := mkWorld "/home/user" ∅.

(** ** Display Matcher: the last branch of [main] *)

(** [get_edids]; the elements are [Display] objects, so the [edid] attribute
    is read. *)
Definition get_edids (ds : list Display) : list string :=
  map edid ds.

(** [set(current_edids).issubset(config_edids)] *)
Definition issubset (current_edids config_edids : list string) : bool :=
  bool_decide (list_to_set current_edids ⊆@{gset string} list_to_set config_edids).

(** [next(iter([d.name for d in current if d.edid == display.edid]), display.name)] *)
Definition current_name (current : list Display) (display : Display) : string :=
  default (name display)
    (head (map name (filter (fun d => edid d = edid display) current))).

(** The displays [main] configures: [configuration_list] is what
    [JsonUtils.from_json] returned, [current_displays] what the parser found. *)
Definition select_displays (configuration_list : option DisplayList)
    (current_displays : DisplayList) : list Display :=
  let use_current :=
    match configuration_list with
    | Some cl =>
        let config_edids := get_edids (displays cl) in
        let current_edids := get_edids (displays current_displays) in
        if issubset current_edids config_edids then false else true
    | None => true
    end in
  if use_current then displays current_displays
  else
    match configuration_list with
    | Some cl =>
        map (fun display => set_name display (current_name (displays current_displays) display))
            (displays cl)
    | None => displays current_displays
    end.

(** [--setup]: the confirmed order goes to the store. *)
Definition setup (w : World) (current_displays : DisplayList) (answers : list string)
    : World * SetupRun :=
  let r := setup_loop (displays current_displays) answers in
  match accepted r with
  | Some display_list => (to_json w (mkDisplayList display_list), r)
  | None => (w, r)
  end.

(** ** Python strings *)

Definition tab : ascii := "009"%char.
Definition newline : ascii := "010"%char.

Definition char_in (cs : list ascii) (c : ascii) : bool :=
  existsb (Ascii.eqb c) cs.

(** [s.startswith(p)] *)
Fixpoint startswith (p s : string) : bool :=
  match p, s with
  | EmptyString, _ => true
  | String a p', String b s' => Ascii.eqb a b && startswith p' s'
  | String _ _, EmptyString => false
  end.

(** [s.find(sub)]: the first position at which [sub] starts. *)
Fixpoint find (sub s : string) : option nat :=
  if startswith sub s then Some 0%nat
  else match s with
       | EmptyString => None
       | String _ s' => S <$> find sub s'
       end.

(** [sub in s] *)
Definition contains (sub s : string) : bool :=
  match find sub s with
  | Some _ => true
  | None => false
  end.

(** [str.isspace] on the characters below 256. *)
Definition isspace (c : ascii) : bool :=
  let n := N_of_ascii c in
  ((9 <=? n) && (n <=? 13) || (28 <=? n) && (n <=? 32)
   || (n =? 133) || (n =? 160))%N.

Fixpoint lstrip (s : string) : string :=
  match s with
  | EmptyString => EmptyString
  | String c s' => if isspace c then lstrip s' else s
  end.

Fixpoint rstrip (s : string) : string :=
  match s with
  | EmptyString => EmptyString
  | String c s' =>
      match rstrip s' with
      | EmptyString => if isspace c then EmptyString else String c EmptyString
      | r => String c r
      end
  end.

(** [s.strip()] *)
Definition strip (s : string) : string := rstrip (lstrip s).

(** [''.join(parts)] *)
Definition join (parts : list string) : string :=
  fold_right String.append "" parts.

(** [s.split("\n")], with the line being read in [cur]. *)
Fixpoint split_from (cur : string) (s : string) : list string :=
  match s with
  | EmptyString => [cur]
  | String c s' =>
      if Ascii.eqb c newline then cur :: split_from "" s'
      else split_from (cur +:+ String c "") s'
  end.

Definition split_lines (s : string) : list string := split_from "" s.

(** The loop [for c in line: if c == "\t": indentation += 1 else: break]. *)
Fixpoint count_tabs (line : string) : nat :=
  match line with
  | String c rest => if Ascii.eqb c tab then S (count_tabs rest) else 0%nat
  | EmptyString => 0%nat
  end.

(** ** The grammar of a connected-display line

    [Lark(grammar, parser='lalr')] with its contextual lexer.  Outside the
    first token the terminals begin with different characters, so the next
    token is fixed by the text; [TEXT] is tried at the start of the line
    only.  Literals of the rules are filtered from the tree, named terminals
    are kept as tokens. *)

Inductive node : Type :=
| Tree (data : string) (children : list node)
| Token (type : string) (value : string).

Module Grammar.

(** [WS: /[ \t\f\r\n]/+] *)
Definition is_ws (c : ascii) : bool :=
  char_in [" "%char; tab; "012"%char; "013"%char; newline] c.

(** [DIGIT: "0".."9"] *)
Definition is_digit (c : ascii) : bool :=
  let n := N_of_ascii c in ((48 <=? n) && (n <=? 57))%N.

(** [TEXT: /[-a-zA-Z0-9]+/] *)
Definition is_text (c : ascii) : bool :=
  let n := N_of_ascii c in
  ((n =? 45) || (97 <=? n) && (n <=? 122) || (65 <=? n) && (n <=? 90)
   || (48 <=? n) && (n <=? 57))%N.

(** The longest prefix of characters in a class, and what follows it. *)
Fixpoint span (p : ascii -> bool) (s : string) : string * string :=
  match s with
  | EmptyString => (EmptyString, EmptyString)
  | String c s' =>
      if p c then let (tok, rest) := span p s' in (String c tok, rest)
      else (EmptyString, s)
  end.

Definition skip_ws (s : string) : string := snd (span is_ws s).

(** A terminal [/[class]+/] after ignored white space. *)
Definition regexp (p : ascii -> bool) (s : string) : option (string * string) :=
  match span p (skip_ws s) with
  | (EmptyString, _) => None
  | (tok, rest) => Some (tok, rest)
  end.

Fixpoint literal_at (lit s : string) : option string :=
  match lit, s with
  | EmptyString, _ => Some s
  | String a lit', String b s' => if Ascii.eqb a b then literal_at lit' s' else None
  | String _ _, EmptyString => None
  end.

(** A literal terminal after ignored white space. *)
Definition literal (lit s : string) : option string :=
  literal_at lit (skip_ws s).

Definition TEXT := regexp is_text.
Definition NUMBER := regexp is_digit.

(** [OFFSET_DIRECTION: ("+"|"-")] *)
Definition OFFSET_DIRECTION (s : string) : option (string * string) :=
  match literal "+" s with
  | Some rest => Some ("+", rest)
  | None => match literal "-" s with
            | Some rest => Some ("-", rest)
            | None => None
            end
  end.

(** Does a [NUMBER] come next? *)
Definition number_next (s : string) : bool :=
  match skip_ws s with
  | String c _ => is_digit c
  | EmptyString => false
  end.

(** [output: TEXT] *)
Definition output (s : string) : option (node * string) :=
  '(t, r) ← TEXT s;
  Some (Tree "output" [Token "TEXT" t], r).

(** [pixels: NUMBER] *)
Definition pixels (s : string) : option (node * string) :=
  '(t, r) ← NUMBER s;
  Some (Tree "pixels" [Token "NUMBER" t], r).

(** [offset_value: NUMBER] *)
Definition offset_value (s : string) : option (node * string) :=
  '(t, r) ← NUMBER s;
  Some (Tree "offset_value" [Token "NUMBER" t], r).

(** [offset: OFFSET_DIRECTION offset_value] *)
Definition offset (s : string) : option (node * string) :=
  '(d, r1) ← OFFSET_DIRECTION s;
  '(v, r2) ← offset_value r1;
  Some (Tree "offset" [Token "OFFSET_DIRECTION" d; v], r2).

(** [screen_offset: offset offset] *)
Definition screen_offset (s : string) : option (node * string) :=
  '(x, r1) ← offset s;
  '(y, r2) ← offset r1;
  Some (Tree "screen_offset" [x; y], r2).

(** [resolution_offset: pixels "x" pixels screen_offset] *)
Definition resolution_offset (s : string) : option (node * string) :=
  '(w, r1) ← pixels s;
  r2 ← literal "x" r1;
  '(h, r3) ← pixels r2;
  '(o, r4) ← screen_offset r3;
  Some (Tree "resolution_offset" [w; h; o], r4).

(** One of ["normal"|"left"|"inverted"|"right"|"x"|"axis"|"y"]. *)
Definition words : list string :=
  ["inverted"; "normal"; "right"; "axis"; "left"; "x"; "y"].

Definition word (s : string) : option string :=
  head (omap (fun w => literal w s) words).

(** As many further words as the text has, at most [fuel]. *)
Fixpoint more_words (fuel : nat) (s : string) : string :=
  match fuel with
  | O => s
  | S fuel' =>
      match word s with
      | Some r => more_words fuel' r
      | None => s
      end
  end.

(** [orientation: "(" (...)+ ")"]; every word uses up a character, so the
    length of the text is fuel enough. *)
Definition orientation (s : string) : option (node * string) :=
  r1 ← literal "(" s;
  r2 ← word r1;
  r3 ← literal ")" (more_words (String.length r2) r2);
  Some (Tree "orientation" [], r3).

(** [length: NUMBER "mm"] *)
Definition length (s : string) : option (node * string) :=
  '(t, r1) ← NUMBER s;
  r2 ← literal "mm" r1;
  Some (Tree "length" [Token "NUMBER" t], r2).

(** [screen_size: length "x" length] *)
Definition screen_size (s : string) : option (node * string) :=
  '(a, r1) ← length s;
  r2 ← literal "x" r1;
  '(b, r3) ← length r2;
  Some (Tree "screen_size" [a; b], r3).

(** A rule marked [?]: taken when a [NUMBER] comes next. *)
Definition if_number (rule : string -> option (node * string)) (s : string)
    : option (list node * string) :=
  if number_next s then '(t, r) ← rule s; Some ([t], r)
  else Some ([], s).

(** [start: output "connected" "primary"? resolution_offset? orientation screen_size?] *)
Definition start (s : string) : option (node * string) :=
  '(o, r1) ← output s;
  r2 ← literal "connected" r1;
  let r3 := default r2 (literal "primary" r2) in
  '(res, r4) ← if_number resolution_offset r3;
  '(ori, r5) ← orientation r4;
  '(size, r6) ← if_number screen_size r5;
  Some (Tree "start" (o :: res ++ ori :: size), r6).

(** [parser.parse(line)]: the whole line has to be used up. *)
Definition parse (line : string) : option node :=
  '(t, rest) ← start line;
  match skip_ws rest with
  | EmptyString => Some t
  | _ => None
  end.

End Grammar.

(** ** Status Parser: [DisplayParser] *)

(** [node.children], [token.value]; the other kind of node has no such
    attribute. *)
Definition children_of (n : node) : option (list node) :=
  match n with
  | Tree _ children => Some children
  | Token _ _ => None
  end.

Definition value_of (n : node) : option string :=
  match n with
  | Token _ value => Some value
  | Tree _ _ => None
  end.

(** [__filter_tree] *)
Definition filter_tree (elements : list node) (element : string) : list node :=
  List.filter (fun entry => match entry with
                            | Tree data _ => String.eqb data element
                            | Token _ _ => false
                            end) elements.

(** [__first] *)
Definition first (elements : list node) : option node := head elements.

(** [__filter_tree_single] *)
Definition filter_tree_single (elements : list node) (element : string) : option node :=
  first (filter_tree elements element).

(** [parse_offset] *)
Definition parse_offset (direction_offset : node) : option Offset :=
  cs ← children_of direction_offset;
  c0 ← py_index cs 0;
  direction ← value_of c0;
  c1 ← py_index cs 1;
  vs ← children_of c1;
  v0 ← py_index vs 0;
  offset ← value_of v0;
  Some (mkOffset direction offset).

(** [parse_display]; a token is a [str], which is what [+] needs on its
    left. *)
Definition parse_display (display : node) : option Display :=
  top ← children_of display;
  out ← filter_tree_single top "output";
  out_children ← children_of out;
  out0 ← py_index out_children 0;
  display_name ← value_of out0;
  match filter_tree_single top "resolution_offset" with
  | Some resolution_offset =>
      ro_children ← children_of resolution_offset;
      let pixels := filter_tree ro_children "pixels" in
      p0 ← py_index pixels 0;
      p0c ← children_of p0;
      w ← py_index p0c 0;
      w' ← value_of w;
      p1 ← py_index pixels 1;
      p1c ← children_of p1;
      h ← py_index p1c 0;
      h' ← value_of h;
      so ← filter_tree_single ro_children "screen_offset";
      offset ← children_of so;
      o0 ← py_index offset 0;
      x_offset ← parse_offset o0;
      o1 ← py_index offset 1;
      y_offset ← parse_offset o1;
      Some (Display_init display_name (Some (w' +:+ "x" +:+ h')) (Some x_offset) (Some y_offset) None)
  | None => Some (Display_init display_name None None None None)
  end.

(** [display = parser.parse(line)] and
    [parsed_display = self.parse_display(display)]. *)
Definition parse_connected (line : string) : option Display :=
  display ← Grammar.parse line;
  parse_display display.

(** The variables of the loop in [parse]. *)
Record ParseState : Type := mkParseState {
  parsed_displays : list Display;
  edid_buffer : list string;
  collect_lines : bool;
  attribute_indentation : nat;
  last_connected : bool
}.

Definition initial_state : ParseState := mkParseState [] [] false 0 false.

(** [parsed_displays[len(parsed_displays) - 1].edid = e] *)
Definition set_last_edid (ds : list Display) (e : string) : option (list Display) :=
  let i := Z.of_nat (List.length ds) - 1 in
  d ← py_index ds i;
  Some (<[Z.to_nat i := set_edid d e]> ds).

(** The indentation the collecting branch computes for a line. *)
Definition indentation_of (attribute_indentation : nat) (line : string) : nat :=
  if startswith " " line then attribute_indentation else count_tabs line.

(** One pass through the body of [for line in lines]. *)
Definition parse_line (st : ParseState) (line : string) : option ParseState :=
  if contains "disconnected" line then
    Some (mkParseState (parsed_displays st) (edid_buffer st) (collect_lines st)
            (attribute_indentation st) false)
  else if contains "connected" line then
    parsed_display ← parse_connected line;
    Some (mkParseState (parsed_displays st ++ [parsed_display]) (edid_buffer st)
            (collect_lines st) (attribute_indentation st) true)
  else if last_connected st && contains "EDID" line then
    i ← find "EDID" line;
    Some (mkParseState (parsed_displays st) [] true i (last_connected st))
  else if collect_lines st then
    let indentation := indentation_of (attribute_indentation st) line in
    if Nat.eqb (attribute_indentation st) indentation then
      ds ← set_last_edid (parsed_displays st) (join (edid_buffer st));
      Some (mkParseState ds (edid_buffer st) false (attribute_indentation st)
              (last_connected st))
    else
      Some (mkParseState (parsed_displays st) (edid_buffer st ++ [strip line])
              (collect_lines st) (attribute_indentation st) (last_connected st))
  else Some st.

(** [for line in lines] *)
Definition parse_lines (st : ParseState) (lines : list string) : option ParseState :=
  foldl (fun acc line => st' ← acc; parse_line st' line) (Some st) lines.

(** [DisplayParser.parse], on the text that [ProcessUtils.run] returned for
    the status command. *)
Definition parse (output : string) : option DisplayList :=
  st ← parse_lines initial_state (split_lines output);
  Some (mkDisplayList (parsed_displays st)).

(** ** The text of a connected-display line

    The form in which the status command prints such a line:
    [<name> connected [primary] [<W>x<H>+<X>+<Y>] (<flags>) [<W>mm x <H>mm]]. *)

Fixpoint all_chars (p : ascii -> bool) (s : string) : bool :=
  match s with
  | EmptyString => true
  | String c s' => p c && all_chars p s'
  end.

(** A lexeme of a terminal [/[class]+/]. *)
Definition lexeme (p : ascii -> bool) (s : string) : bool :=
  match s with
  | EmptyString => false
  | String _ _ => all_chars p s
  end.

(** The character after a lexeme does not carry it on. *)
Definition ends (p : ascii -> bool) (rest : string) : bool :=
  match rest with
  | EmptyString => true
  | String c _ => negb (p c)
  end.

Definition is_TEXT : string -> bool := lexeme Grammar.is_text.
Definition is_NUMBER : string -> bool := lexeme Grammar.is_digit.

Definition is_OFFSET_DIRECTION (s : string) : bool :=
  String.eqb s "+" || String.eqb s "-".

Definition is_word (s : string) : bool :=
  existsb (String.eqb s) Grammar.words.

Definition is_offset (o : Offset) : bool :=
  is_OFFSET_DIRECTION (direction o) && is_NUMBER (offset o).

(** The current mode of an active display: pixels and position. *)
Record Geometry : Type := mkGeometry {
  width : string;
  height : string;
  x_position : Offset;
  y_position : Offset
}.

Definition is_geometry (g : Geometry) : bool :=
  is_NUMBER (width g) && is_NUMBER (height g)
  && is_offset (x_position g) && is_offset (y_position g).

Definition is_size (size : string * string) : bool :=
  is_NUMBER (fst size) && is_NUMBER (snd size).

Definition offset_text (o : Offset) : string :=
  direction o +:+ offset o.

Definition geometry_text (g : Geometry) : string :=
  " " +:+ width g +:+ "x" +:+ height g
  +:+ offset_text (x_position g) +:+ offset_text (y_position g).

Fixpoint more_flags_text (flags : list string) : string :=
  match flags with
  | [] => ""
  | w :: rest => " " +:+ w +:+ more_flags_text rest
  end.

Definition flags_text (flags : list string) : string :=
  match flags with
  | [] => ""
  | w :: rest => w +:+ more_flags_text rest
  end.

Definition size_text (size : string * string) : string :=
  " " +:+ fst size +:+ "mm x " +:+ snd size +:+ "mm".

Definition opt_text {A : Type} (f : A -> string) (o : option A) : string :=
  match o with
  | Some a => f a
  | None => ""
  end.

Definition connected_line (output : string) (primary : bool)
    (geometry : option Geometry) (flags : list string)
    (size : option (string * string)) : string :=
  output +:+ " connected" +:+ (if primary then " primary" else "")
  +:+ opt_text geometry_text geometry
  +:+ " (" +:+ flags_text flags +:+ ")"
  +:+ opt_text size_text size.

(** The parts of such a line are lexemes of the grammar. *)
Definition well_formed (output : string) (geometry : option Geometry)
    (flags : list string) (size : option (string * string)) : bool :=
  is_TEXT output
  && match geometry with Some g => is_geometry g | None => true end
  && match flags with [] => false | _ => forallb is_word flags end
  && match size with Some sz => is_size sz | None => true end.

(** The record that holds what such a line says of the display. *)
Definition display_of (output : string) (geometry : option Geometry) : Display :=
  mkDisplay output
    ((fun g => width g +:+ "x" +:+ height g) <$> geometry)
    (x_position <$> geometry) (y_position <$> geometry) "".

(** The tree the parser builds for such a line. *)
Definition offset_tree (o : Offset) : node :=
  Tree "offset" [Token "OFFSET_DIRECTION" (direction o);
                 Tree "offset_value" [Token "NUMBER" (offset o)]].

Definition geometry_tree (g : Geometry) : node :=
  Tree "resolution_offset"
    [Tree "pixels" [Token "NUMBER" (width g)];
     Tree "pixels" [Token "NUMBER" (height g)];
     Tree "screen_offset" [offset_tree (x_position g); offset_tree (y_position g)]].

Definition size_tree (size : string * string) : node :=
  Tree "screen_size" [Tree "length" [Token "NUMBER" (fst size)];
                      Tree "length" [Token "NUMBER" (snd size)]].

Definition opt_tree {A : Type} (f : A -> node) (o : option A) : list node :=
  match o with
  | Some a => [f a]
  | None => []
  end.

Definition line_tree (output : string) (geometry : option Geometry)
    (size : option (string * string)) : node :=
  Tree "start" (Tree "output" [Token "TEXT" output]
                :: opt_tree geometry_tree geometry
                ++ Tree "orientation" [] :: opt_tree size_tree size).

Definition all_flags : list string :=
  ["normal"; "left"; "inverted"; "right"; "x"; "axis"; "y"].

(** While a display counts as connected, or a block is being collected,
    there is a display to give the EDID to. *)
Definition has_display (st : ParseState) : Prop :=
  last_connected st = true \/ collect_lines st = true -> parsed_displays st <> [].

(** A line that the collecting branch appends to the buffer: it is for none
    of the branches before, and not at the indentation [i] of the marker. *)
Definition collected_line (i : nat) (line : string) : Prop :=
  contains "connected" line = false /\ contains "EDID" line = false /\
  indentation_of i line <> i.

(** A line that ends the collection: at the indentation of the marker. *)
Definition stop_line (i : nat) (line : string) : Prop :=
  contains "connected" line = false /\ contains "EDID" line = false /\
  indentation_of i line = i.

(** The state after the first line of the demonstration. *)
Definition connected_state : ParseState :=
  mkParseState [active "eDP-1"] [] false 0 true.





(** The lines of a status report: a connected display, its EDID property
    with one continuation line, and lines that follow it. *)
Definition connected_demo : string :=
  "eDP-1 connected primary 1920x1080+0+0 (normal left inverted right x axis y) 310mm x 170mm".

Definition marker_demo : string := String tab "EDID: ".
Definition hex_demo : string := String tab (String tab "00ffffffffffff00").
Definition deeper_demo : string := String tab (String tab (String tab "range: (0, 15)")).
Definition property_demo : string := String tab "scaling mode: Full aspect".
Definition disconnected_demo : string :=
  "HDMI-1 disconnected (normal left inverted right x axis y)".

(** The example of the specification: a stored order with EDIDs B, A, C and
    two live scans. *)
Definition stored_demo : DisplayList :=
  mkDisplayList [mkDisplay "DP-2" None None None "B";
                 mkDisplay "eDP-1" None None None "A";
                 mkDisplay "DP-3" None None None "C"].

Definition live_known : DisplayList :=
  mkDisplayList [mkDisplay "eDP-1" None None None "A";
                 mkDisplay "HDMI-1" None None None "B"].

Definition live_unknown : DisplayList :=
  mkDisplayList [mkDisplay "eDP-1" None None None "A";
                 mkDisplay "HDMI-1" None None None "D"].

(** ** The answers to the setup prompt *)

(** The [n] answers before the first [y]. *)
Fixpoint rejections (answers : list string) : nat :=
  match answers with
  | [] => 0%nat
  | a :: rest =>
      if String.eqb "y" a then 0%nat
      else if String.eqb "n" a then S (rejections rest)
      else rejections rest
  end.

(** Is there a [y] among the answers? *)
Definition confirmed (answers : list string) : bool :=
  existsb (String.eqb "y") answers.

(** ** [main]: the branch that configures the displays *)

(** The options of the command line that the branch reads. *)
Record Args : Type := mkArgs {
  arg_internal : bool;
  arg_clone : bool;
  arg_extend : bool;
  arg_external : bool;
  arg_all : bool;
  arg_left : bool
}.

(** What the branch ends in: a command handed to [ProcessUtils.run], or the
    message [Operation not implemented]. *)
Inductive Action : Type :=
| Run (command : string)
| NotImplemented.

(** [extend_direction = "left" if args["--left"] else "right"] *)
Definition extend_direction (args : Args) : string :=
  if arg_left args then "left" else "right".

(** The chain of [if args[...]] at the end of [main]; [configure] is called
    with its defaults for [--internal] and [--clone]. *)
Definition dispatch (args : Args) (ds : list Display) : option Action :=
  if arg_internal args then Run <$> configure ds INTERNAL_ONLY false "right"
  else if arg_clone args then Run <$> configure ds CLONE false "right"
  else if arg_extend args then
    Run <$> configure ds INTERNAL_EXTEND (arg_all args) (extend_direction args)
  else if arg_external args then
    Run <$> configure ds EXTERNAL_ONLY (arg_all args) (extend_direction args)
  else Some NotImplemented.

(** The [else] branch of [main]: load the stored configuration, choose the
    displays, build the command. *)
Definition main_configure (w : World) (args : Args) (current_displays : DisplayList)
    : outcome Action :=
  match snd (from_json w) with
  | Returns configuration_list =>
      match dispatch args (select_displays configuration_list current_displays) with
      | Some a => Returns a
      | None => Raises
      end
  | Raises => Raises
  | Untyped => Untyped
  end.

(** A display with both offsets. *)
Definition has_offsets (d : Display) : Prop :=
  is_Some (x_offset d) /\ is_Some (y_offset d).

(** The names [Display.from_json] subscripts its argument with. *)
Definition display_members : list string :=
  ["x_offset"; "y_offset"; "name"; "resolution"; "edid"].

(** A document without one of its members. *)
Definition without_member (key : string) (doc : json) : json :=
  match doc with
  | JObject members =>
      JObject (List.filter (fun kv => negb (String.eqb (fst kv) key)) members)
  | _ => doc
  end.

(** ** The displays of a status text *)

(** A line that the loop hands to the grammar. *)
Definition is_connected_line (line : string) : bool :=
  negb (contains "disconnected" line) && contains "connected" line.

(** The displays of the connected lines, in the order of the lines; [None]
    when one of these lines is not of the grammar. *)
Fixpoint connected_displays (lines : list string) : option (list Display) :=
  match lines with
  | [] => Some []
  | line :: rest =>
      if is_connected_line line then
        d ← parse_connected line;
        ds ← connected_displays rest;
        Some (d :: ds)
      else connected_displays rest
  end.

Definition clear_edid (d : Display) : Display := set_edid d "".

(** A display connected and turned to the left: the status command prints
    the rotation before the parenthesis. *)
Definition rotated_demo : string :=
  "HDMI-1 connected 1080x1920+1920+0 left (normal left inverted right x axis y) 527mm x 296mm".

(** * Properties *)

Example configure_internal_extend_three :
  configure three_demo INTERNAL_EXTEND true "right"
  = Some "xrandr --output eDP-1 --primary --auto --output HDMI-1 --auto --right-of eDP-1 --output DP-1 --auto --right-of HDMI-1".
Proof. reflexivity. Qed.

Example configure_external_two :
  configure ext_demo EXTERNAL_ONLY false "right"
  = Some "xrandr --output eDP-1 --off --off --output HDMI-1 --primary --auto".
Proof. reflexivity. Qed.

Example configure_external_two_all :
  configure ext_demo EXTERNAL_ONLY true "right"
  = Some "xrandr --output eDP-1 --off --auto --right-of HDMI-1 --output HDMI-1 --primary --auto".
Proof. reflexivity. Qed.

(** ** Python indexing *)

Section PyIndex.
Context {A : Type}.
Implicit Types l : list A.

Lemma py_index_nat l (i : nat) : py_index l (Z.of_nat i) = l !! i.
Proof.
  unfold py_index. destruct (Z.leb_spec 0 (Z.of_nat i)); [|lia].
  by rewrite Nat2Z.id.
Qed.

Lemma py_index_pred l (i : nat) : py_index l (Z.of_nat (S i) - 1) = l !! i.
Proof. replace (Z.of_nat (S i) - 1) with (Z.of_nat i) by lia. apply py_index_nat. Qed.


Lemma py_index_is_Some l (i : Z) :
  - Z.of_nat (length l) <= i < Z.of_nat (length l) -> is_Some (py_index l i).
Proof.
  intros [Hlo Hhi]. unfold py_index.
  destruct (Z.leb_spec 0 i).
  - apply lookup_lt_is_Some. lia.
  - destruct (Z.leb_spec 0 (i + Z.of_nat (length l))); [|lia].
    apply lookup_lt_is_Some. lia.
Qed.
End PyIndex.

(** ** Command Builder *)

Section ConfigureFacts.
Variable all_displays : list Display.
Variable display_mode : DisplayMode.
Variable extend_all : bool.
Variable dir : string.

Abbreviation body := (configure_body all_displays display_mode extend_all dir).
Abbreviation loop := (configure_loop all_displays display_mode extend_all dir).

Lemma auto_dir_of_is_Some (idx : Z) :
  0 <= idx <= Z.of_nat (length all_displays) -> all_displays <> [] ->
  is_Some (auto_dir_of all_displays dir idx).
Proof.
  intros Hidx Hne. unfold auto_dir_of.
  destruct (py_index_is_Some all_displays (idx - 1)) as [p ->]; [|by eexists].
  destruct all_displays; [done|]. simpl in *. lia.
Qed.

Lemma auto_same_as_is_Some (idx : Z) :
  0 <= idx <= Z.of_nat (length all_displays) -> all_displays <> [] ->
  is_Some (auto_same_as all_displays idx).
Proof.
  intros Hidx Hne. unfold auto_same_as.
  destruct (py_index_is_Some all_displays (idx - 1)) as [p ->]; [|by eexists].
  destruct all_displays; [done|]. simpl in *. lia.
Qed.

(** No pass through the loop raises: [displays[idx - 1]] is in range, from
    the end of the list when [idx] is [0]. *)
Lemma configure_body_is_Some (idx : Z) (display : Display) :
  0 <= idx <= Z.of_nat (length all_displays) -> all_displays <> [] ->
  is_Some (body idx display).
Proof.
  intros Hidx Hne.
  destruct (auto_dir_of_is_Some idx Hidx Hne) as [a Ha].
  destruct (auto_same_as_is_Some idx Hidx Hne) as [b Hb].
  unfold configure_body, clone_part, mode_part.
  rewrite Ha, Hb.
  destruct display_mode, (idx =? 0), (idx =? 1), extend_all; simpl; by eexists.
Qed.


Lemma configure_loop_is_Some (rest : list Display) :
  forall k : Z,
    (forall (i : nat) (d : Display), rest !! i = Some d ->
       is_Some (body (k + Z.of_nat i) d)) ->
    is_Some (loop k rest).
Proof.
  induction rest as [|d0 rest IH]; intros k Hbody; simpl; [by eexists|].
  destruct (Hbody 0%nat d0 eq_refl) as [dv0 Hdv0].
  replace (k + Z.of_nat 0) with k in Hdv0 by lia. rewrite Hdv0. simpl.
  destruct (IH (k + 1)) as [dvs' ->]; [|by eexists].
  intros i d Hi.
  replace (k + 1 + Z.of_nat i) with (k + Z.of_nat (S i)) by lia.
  by apply Hbody.
Qed.
End ConfigureFacts.

(** [configure] builds a command for every list, mode, flag and direction. *)
Lemma directives_is_Some (ds : list Display) (m : DisplayMode) (ea : bool) (dir : string) :
  is_Some (directives ds m ea dir).
Proof.
  unfold directives. apply configure_loop_is_Some.
  intros i d Hi. apply configure_body_is_Some.
  - apply lookup_lt_Some in Hi. lia.
  - intros ->. done.
Qed.



(** The loop body in INTERNAL_EXTEND mode, index by index. *)
Lemma internal_extend_body (ds : list Display) (ea : bool) (dir : string)
    (i : nat) (d : Display) :
  configure_body ds INTERNAL_EXTEND ea dir (Z.of_nat i) d =
  match i with
  | O => Some (primary_auto d)
  | S j =>
      if Nat.eqb j 0 || ea then prev ← ds !! j; Some (positioned d dir prev)
      else Some (powered_off d)
  end.
Proof.
  unfold configure_body, clone_part, mode_part, auto_dir_of. simpl.
  destruct i as [|[|j]]; [done| |].
  - change (Z.of_nat 1 - 1) with (Z.of_nat 0). rewrite py_index_nat. simpl.
    by destruct (ds !! 0%nat).
  - rewrite py_index_pred.
    destruct (Z.eqb_spec (Z.of_nat (S (S j))) 0); [lia|].
    destruct (Z.eqb_spec (Z.of_nat (S (S j))) 1); [lia|].
    destruct ea; simpl; [|done]. by destruct (ds !! S j).
Qed.


Lemma clone_body (ds : list Display) (ea : bool) (dir : string) (i : nat) (d : Display) :
  configure_body ds CLONE ea dir (Z.of_nat i) d =
  match i with
  | O => Some (primary_auto d)
  | S j => prev ← ds !! j; Some (mirrored d prev)
  end.
Proof.
  unfold configure_body, clone_part, mode_part, auto_same_as. simpl.
  destruct i as [|j]; [done|].
  rewrite py_index_pred.
  destruct (Z.eqb_spec (Z.of_nat (S j)) 0); [lia|]. by destruct (ds !! j).
Qed.

Lemma internal_only_body (ds : list Display) (ea : bool) (dir : string)
    (i : nat) (d : Display) :
  configure_body ds INTERNAL_ONLY ea dir (Z.of_nat i) d =
  match i with
  | O => Some (primary_auto d)
  | S _ => Some (powered_off d)
  end.
Proof.
  unfold configure_body, clone_part, mode_part. simpl.
  destruct i as [|j]; [done|].
  by destruct (Z.eqb_spec (Z.of_nat (S j)) 0); [lia|].
Qed.



(** The example of the specification: three displays, every display
    extended to the right. *)
Example internal_extend_three :
  directives three_demo INTERNAL_EXTEND true "right"
  = Some [primary_auto (active "eDP-1");
          positioned (active "HDMI-1") "right" (active "eDP-1");
          positioned (active "DP-1") "right" (active "HDMI-1")].
Proof. reflexivity. Qed.



(** C1.  The internal and one external display, EXTERNAL_ONLY with
    [extend_all] set and direction right: the directive for the internal
    display is [--off] followed by [--auto --right-of HDMI-1], not a
    powered-off directive; without [extend_all] it is [--off] twice. *)
Theorem external_only_internal_display_not_off :
  directives ext_demo EXTERNAL_ONLY true "right"
  = Some [[Output "eDP-1"; Off; AutoDirOf "right" "HDMI-1"];
          primary_auto (active "HDMI-1")]
  /\ configure ext_demo EXTERNAL_ONLY true "right"
     = Some "xrandr --output eDP-1 --off --auto --right-of HDMI-1 --output HDMI-1 --primary --auto"
  /\ directives ext_demo EXTERNAL_ONLY false "right"
     = Some [[Output "eDP-1"; Off; Off]; primary_auto (active "HDMI-1")]
  /\ [Output "eDP-1"; Off; AutoDirOf "right" "HDMI-1"] <> powered_off (active "eDP-1").
Proof. repeat split; done. Qed.



(** C2.  The internal and one external display, EXTERNAL_ONLY with
    [extend_all] set: there are two directives, in the order of the list, and
    the directive at index 0 is positioned against HDMI-1, the display at
    index 1, so it does not depend on earlier displays only. *)
Theorem external_only_forward_reference :
  exists dv0 dv1 : directive,
    directives ext_demo EXTERNAL_ONLY true "right" = Some [dv0; dv1] /\
    "HDMI-1" ∈ directive_refs dv0 /\
    ext_demo !! 1%nat = Some (active "HDMI-1") /\
    ~ refers_back ext_demo 0 dv0.
Proof.
  eexists _, _. split; [reflexivity|]. split; [simpl; set_solver|]. split; [done|].
  intros Hback. destruct (Hback "HDMI-1") as (j & _ & Hj & _); [simpl; set_solver|lia].
Qed.

(** ** Setup Wizard *)

Lemma py_clamp_minus_one (n : nat) : py_clamp (Z.of_nat n) (- 1) = pred n.
Proof. unfold py_clamp. simpl. lia. Qed.

Lemma rotate_1 {A : Type} (l : list A) :
  rotate l 1 = drop (pred (length l)) l ++ take (pred (length l)) l.
Proof.
  unfold rotate, py_slice_from, py_slice_to.
  by rewrite py_clamp_minus_one.
Qed.

(** The last element moves to the front. *)
Lemma rotate_1_snoc {A : Type} (l : list A) (x : A) : rotate (l ++ [x]) 1 = x :: l.
Proof.
  rewrite rotate_1, length_app. simpl.
  replace (pred (length l + 1)) with (length l + 0)%nat by lia.
  rewrite drop_app_add, take_app_add. simpl. by rewrite app_nil_r.
Qed.

Lemma candidate_S (l : list Display) (k : nat) :
  candidate l (S k) = rotate (candidate l k) 1.
Proof. done. Qed.

Lemma candidate_rotate (l : list Display) (k : nat) :
  candidate (rotate l 1) k = candidate l (S k).
Proof.
  induction k as [|k IH]; [done|].
  rewrite candidate_S, IH. done.
Qed.

(** After [k] rejections the list is the original one, cut [k] places before
    its end, with the two parts swapped. *)
Lemma candidate_drop_take (l : list Display) (k : nat) :
  (k <= length l)%nat ->
  candidate l k = drop (length l - k) l ++ take (length l - k) l.
Proof.
  induction k as [|k IH]; intros Hk.
  - rewrite Nat.sub_0_r, drop_all, take_ge by lia. done.
  - rewrite candidate_S, IH by lia.
    destruct (lookup_lt_is_Some_2 l (length l - S k)) as [x Hx]; [lia|].
    replace (length l - k)%nat with (S (length l - S k)) by lia.
    rewrite (take_S_r _ _ _ Hx), app_assoc, rotate_1_snoc.
    by rewrite (drop_S _ _ _ Hx).
Qed.

Lemma candidate_full_turn (l : list Display) : candidate l (length l) = l.
Proof.
  rewrite candidate_drop_take by lia.
  rewrite Nat.sub_diag. simpl. by rewrite drop_0, app_nil_r.
Qed.

(** The first element of a candidate tells the rotation. *)
Lemma candidate_head (l : list Display) (k : nat) :
  (k < length l)%nat ->
  candidate l k !! 0%nat = l !! (match k with O => 0 | S _ => length l - k end)%nat.
Proof.
  intros Hk. destruct k as [|k]; [done|].
  rewrite candidate_drop_take by lia.
  rewrite lookup_app_l by (rewrite length_drop; lia).
  rewrite lookup_drop. f_equal. lia.
Qed.

Lemma setup_loop_rejections (k : nat) :
  forall l : list Display,
    proposals (setup_loop l (replicate k "n")) = map (candidate l) (seq 0 (S k)) /\
    accepted (setup_loop l (replicate k "n" ++ ["y"])) = Some (candidate l k).
Proof.
  induction k as [|k IH]; intros l; [done|].
  destruct (IH (rotate l 1)) as [IHp IHa].
  split.
  - change (replicate (S k) "n") with ("n" :: replicate k "n"). simpl setup_loop.
    simpl proposals. rewrite IHp.
    change (seq 0 (S (S k))) with (0%nat :: seq 1 (S k)).
    rewrite <- seq_shift, map_cons, map_map. f_equal.
    apply map_ext. intros j. apply candidate_rotate.
  - change (replicate (S k) "n" ++ ["y"]) with ("n" :: (replicate k "n" ++ ["y"])).
    simpl setup_loop. simpl accepted. rewrite IHa. f_equal. apply candidate_rotate.
Qed.

(** An answer that is neither [y] nor [n] changes nothing. *)
Lemma setup_loop_other_answer (l : list Display) (a : string) (answers : list string) :
  a <> "y" -> a <> "n" -> setup_loop l (a :: answers) = setup_loop l answers.
Proof.
  intros Hy Hn. cbn [setup_loop].
  destruct (String.eqb_spec "y" a); [congruence|].
  destruct (String.eqb_spec "n" a); [congruence|]. done.
Qed.

(** C9.  A rejection rotates the list by one position, the last display
    moving to the front; the candidates proposed over [k] rejections are the
    lists rotated 0, 1, ..., [k] times; rotated [k <= N] times the list is the
    original one cut [k] places before its end with the parts swapped; [N]
    rotations restore the original list; and the first [N] candidates of a
    list without repeated displays are pairwise different, so every rotation
    is proposed once before the cycle repeats. *)
Theorem setup_rotation_cycle (l : list Display) :
  (forall (x : Display) (l' : list Display), l = l' ++ [x] -> rotate l 1 = x :: l') /\
  (forall k : nat,
     proposals (setup_loop l (replicate k "n")) = map (candidate l) (seq 0 (S k)) /\
     accepted (setup_loop l (replicate k "n" ++ ["y"])) = Some (candidate l k)) /\
  (forall k : nat, (k <= length l)%nat ->
     candidate l k = drop (length l - k) l ++ take (length l - k) l) /\
  candidate l (length l) = l /\
  (NoDup l -> forall j k : nat, (j < length l)%nat -> (k < length l)%nat ->
     candidate l j = candidate l k -> j = k).
Proof.
  split; [intros x l' ->; apply rotate_1_snoc|].
  split; [intros k; apply setup_loop_rejections|].
  split; [apply candidate_drop_take|].
  split; [apply candidate_full_turn|].
  intros Hnd j k Hj Hk Heq.
  assert (Hhead : candidate l j !! 0%nat = candidate l k !! 0%nat) by by rewrite Heq.
  rewrite !candidate_head in Hhead by done.
  destruct (lookup_lt_is_Some_2 l (match j with O => 0 | S _ => length l - j end)%nat)
    as [x Hx]; [destruct j; lia|].
  rewrite Hx in Hhead. symmetry in Hhead.
  pose proof (NoDup_lookup _ _ _ _ Hnd Hx Hhead) as Hpos.
  destruct j, k; lia.
Qed.

Lemma setup_rotation_cycle_witness :
  rotate three_demo 1 = [active "DP-1"; active "eDP-1"; active "HDMI-1"] /\
  candidate three_demo 2 = drop (3 - 2) three_demo ++ take (3 - 2) three_demo /\
  (candidate three_demo 1 = candidate three_demo 2 -> 1 = 2)%nat.
Proof.
  destruct (setup_rotation_cycle three_demo) as (Hrot & _ & Hcut & _ & Hinj).
  split; [apply (Hrot (active "DP-1") [active "eDP-1"; active "HDMI-1"]); reflexivity|].
  split; [apply (Hcut 2%nat); simpl; lia|].
  apply Hinj; [|simpl; lia|simpl; lia].
  apply (bool_decide_unpack (NoDup three_demo)). vm_compute. exact I.
Defined.

(** Three displays, rejected three times, then confirmed. *)
Example setup_three_rejections :
  map (map name) (proposals (setup_loop three_demo ["n"; "n"; "n"; "y"]))
  = [["eDP-1"; "HDMI-1"; "DP-1"]; ["DP-1"; "eDP-1"; "HDMI-1"];
     ["HDMI-1"; "DP-1"; "eDP-1"]; ["eDP-1"; "HDMI-1"; "DP-1"]]
  /\ accepted (setup_loop three_demo ["n"; "n"; "n"; "y"]) = Some three_demo.
Proof. split; reflexivity. Qed.

(** ** Configuration Store *)

(** C8.  When no file exists at the configuration path, [JsonUtils.from_json]
    returns [None], raises nothing and leaves the files as they were. *)
Theorem from_json_missing_file (w : World) :
  files w !! file_name w = None ->
  from_json w = (w, Returns None).
Proof. intros H. unfold from_json. by rewrite H. Qed.

Lemma from_json_missing_file_witness :
  from_json demo_world = (demo_world, Returns None).
Proof. apply (from_json_missing_file demo_world). reflexivity. Defined.

(** The file is written where it is read. *)
Lemma from_json_to_json (w : World) (dl : DisplayList) :
  from_json (to_json w dl) = (to_json w dl, load_DisplayList (DisplayList_to_json dl)).
Proof.
  unfold from_json, to_json, file_name. simpl. by rewrite lookup_insert_eq.
Qed.

(** A display that has both offsets is read back as it was written. *)
Lemma Display_json_round_trip (d : Display) :
  is_Some (x_offset d) -> is_Some (y_offset d) ->
  exists r : RawDisplay,
    Display_from_json (Display_to_json d) = Some r /\ typed_Display r = Some d.
Proof.
  destruct d as [n r [[xd xo]|] [[yd yo]|] e]; intros [? Hx] [? Hy]; try done.
  eexists. split; [reflexivity|]. by destruct r.
Qed.

(** A display without one of its offsets is written with [null] in its
    place, on which [Offset.from_json] raises. *)
Lemma Display_json_absent_offset (d : Display) :
  lacks_offset d -> Display_from_json (Display_to_json d) = None.
Proof.
  destruct d as [n r [[xd xo]|] [[yd yo]|] e]; intros [Hx|Hy]; done.
Qed.

Lemma load_round_trip (ds : list Display) :
  Forall (fun d => is_Some (x_offset d) /\ is_Some (y_offset d)) ds ->
  exists raw : list RawDisplay,
    mapM Display_from_json (map Display_to_json ds) = Some raw /\
    mapM typed_Display raw = Some ds.
Proof.
  induction 1 as [|d ds [Hx Hy] _ (raw & Hraw & Htyped)]; [by exists []|].
  destruct (Display_json_round_trip d Hx Hy) as (r & Hr & Ht).
  exists (r :: raw). split.
  - rewrite map_cons. simpl. rewrite Hr. simpl. by rewrite Hraw.
  - simpl. rewrite Ht. simpl. by rewrite Htyped.
Qed.

Lemma load_absent_offset (ds : list Display) :
  Exists lacks_offset ds ->
  mapM Display_from_json (map Display_to_json ds) = None.
Proof.
  induction 1 as [d ds Hd|d ds _ IH]; rewrite map_cons; simpl.
  - by rewrite (Display_json_absent_offset d Hd).
  - destruct (Display_from_json (Display_to_json d)); [|done]. simpl.
    by rewrite IH.
Qed.

(** The round trip needs the offsets only; the resolution may be absent. *)
Lemma store_round_trip_offsets (w : World) (dl : DisplayList) :
  Forall (fun d => is_Some (x_offset d) /\ is_Some (y_offset d)) (displays dl) ->
  from_json (to_json w dl) = (to_json w dl, Returns (Some dl)).
Proof.
  intros Hall. rewrite from_json_to_json. f_equal.
  destruct (load_round_trip _ Hall) as (raw & Hraw & Htyped).
  unfold load_DisplayList, DisplayList_from_json, DisplayList_to_json. simpl.
  rewrite Hraw, Htyped. by destruct dl.
Qed.

(** C10.  A display list whose displays all have a resolution and both
    offsets is read back from the store equal to what was written; a list with
    a display that lacks an offset is written with [null] for it, and reading
    it back raises. *)
Theorem store_round_trip (w : World) (dl : DisplayList) :
  (Forall fully_active (displays dl) ->
   from_json (to_json w dl) = (to_json w dl, Returns (Some dl))) /\
  (Exists lacks_offset (displays dl) ->
   from_json (to_json w dl) = (to_json w dl, Raises)).
Proof.
  split.
  - intros Hall. apply store_round_trip_offsets.
    eapply Forall_impl; [exact Hall|]. intros d (_ & Hx & Hy). by split.
  - intros Hex. rewrite from_json_to_json. f_equal.
    unfold load_DisplayList, DisplayList_from_json, DisplayList_to_json. simpl.
    by rewrite (load_absent_offset _ Hex).
Qed.

Lemma store_round_trip_witness :
  from_json (to_json demo_world (mkDisplayList three_demo))
  = (to_json demo_world (mkDisplayList three_demo),
     Returns (Some (mkDisplayList three_demo))) /\
  from_json (to_json demo_world (mkDisplayList [active "eDP-1"; inactive "HDMI-1"]))
  = (to_json demo_world (mkDisplayList [active "eDP-1"; inactive "HDMI-1"]), Raises).
Proof.
  split.
  - apply (proj1 (store_round_trip demo_world (mkDisplayList three_demo))).
    repeat constructor; by eexists.
  - apply (proj2 (store_round_trip demo_world
                    (mkDisplayList [active "eDP-1"; inactive "HDMI-1"]))).
    apply Exists_cons_tl, Exists_cons_hd. left. reflexivity.
Defined.

(** The document written for an inactive display, and what reading it back
    gives. *)
Example inactive_display_document :
  Display_to_json (inactive "HDMI-1")
  = JObject [("name", JString "HDMI-1"); ("resolution", JNull);
             ("x_offset", JNull); ("y_offset", JNull); ("edid", JString "")]
  /\ Display_from_json (Display_to_json (inactive "HDMI-1")) = None.
Proof. split; reflexivity. Qed.

(** ** Display Matcher *)

Lemma issubset_spec (current_edids config_edids : list string) :
  issubset current_edids config_edids = true <->
  forall e : string, e ∈ current_edids -> e ∈ config_edids.
Proof.
  unfold issubset. rewrite bool_decide_eq_true. split.
  - intros Hsub e He. apply (elem_of_list_to_set (C := gset string)).
    apply Hsub. by apply elem_of_list_to_set.
  - intros Hall e He. apply elem_of_list_to_set. apply Hall.
    by apply (elem_of_list_to_set (C := gset string)).
Qed.

(** A stored display keeps its name when no live display has its EDID. *)
Lemma current_name_unmatched (current : list Display) (display : Display) :
  (forall d : Display, d ∈ current -> edid d <> edid display) ->
  current_name current display = name display.
Proof.
  intros Hnone. unfold current_name.
  induction current as [|d current IH]; [done|].
  rewrite filter_cons. destruct (decide (edid d = edid display)) as [He|_].
  - destruct (Hnone d); [left|done].
  - apply IH. intros d' Hd'. apply Hnone. by right.
Qed.

(** It takes the name of the first live display that has its EDID. *)
Lemma current_name_first (current : list Display) (display : Display)
    (k : nat) (d : Display) :
  current !! k = Some d -> edid d = edid display ->
  (forall (k' : nat) (d' : Display), (k' < k)%nat -> current !! k' = Some d' ->
     edid d' <> edid display) ->
  current_name current display = name d.
Proof.
  unfold current_name. revert k.
  induction current as [|c current IH]; intros k Hk He Hfirst; [done|].
  rewrite filter_cons. destruct k as [|k]; simpl in Hk.
  - injection Hk as ->. by rewrite decide_True.
  - rewrite decide_False by (apply (Hfirst 0%nat); [lia|done]).
    apply (IH k); [done|done|].
    intros k' d' Hlt Hd'. apply (Hfirst (S k')); [lia|done].
Qed.

(** When some live display has the EDID, the new name is one the live scan
    reports for it. *)
Lemma current_name_matched (current : list Display) (display : Display) :
  (exists d : Display, d ∈ current /\ edid d = edid display) ->
  exists d' : Display,
    d' ∈ current /\ edid d' = edid display /\ current_name current display = name d'.
Proof.
  intros (d & Hd & He). unfold current_name.
  induction current as [|c current IH]; [by apply elem_of_nil in Hd|].
  rewrite filter_cons. destruct (decide (edid c = edid display)) as [Hc|Hc].
  - exists c. split; [left|done].
  - apply elem_of_cons in Hd as [->|Hd]; [done|].
    destruct (IH Hd) as (d' & Hd' & He' & Hn). exists d'. split; [by right|done].
Qed.

Lemma select_displays_absent (live : DisplayList) :
  select_displays None live = displays live.
Proof. done. Qed.

Lemma select_displays_stored (cl live : DisplayList) :
  (forall e : string, e ∈ get_edids (displays live) -> e ∈ get_edids (displays cl)) ->
  select_displays (Some cl) live
  = map (fun s => set_name s (current_name (displays live) s)) (displays cl).
Proof.
  intros Hsub. pose proof (proj2 (issubset_spec _ _) Hsub) as Hb.
  unfold select_displays. by rewrite Hb.
Qed.

Lemma select_displays_live (cl live : DisplayList) :
  ~ (forall e : string, e ∈ get_edids (displays live) -> e ∈ get_edids (displays cl)) ->
  select_displays (Some cl) live = displays live.
Proof.
  intros Hnot. unfold select_displays.
  destruct (issubset _ _) eqn:Hsub; [|done].
  destruct Hnot. by apply issubset_spec.
Qed.

(** C3.  Without a stored configuration the live list is used.  When every
    EDID of the live list occurs in the stored configuration, the stored list
    is used in its order, every display unchanged but for its name: a display
    whose EDID the live scan reports takes the name the scan reports for that
    EDID (the first such display's), one whose EDID is not connected keeps
    its stored name.  In every other case the live list is used unchanged. *)
Theorem select_displays_matcher (stored : option DisplayList) (live : DisplayList) :
  (stored = None -> select_displays stored live = displays live) /\
  (forall cl : DisplayList, stored = Some cl ->
     (forall e : string, e ∈ get_edids (displays live) -> e ∈ get_edids (displays cl)) ->
     length (select_displays stored live) = length (displays cl) /\
     forall (i : nat) (s : Display), displays cl !! i = Some s ->
       exists r : Display,
         select_displays stored live !! i = Some r /\
         same_but_name s r /\
         ((exists d, d ∈ displays live /\ edid d = edid s) ->
          exists d', d' ∈ displays live /\ edid d' = edid s /\ name r = name d') /\
         (forall (k : nat) (d : Display),
            displays live !! k = Some d -> edid d = edid s ->
            (forall (k' : nat) (d' : Display), (k' < k)%nat ->
               displays live !! k' = Some d' -> edid d' <> edid s) ->
            name r = name d) /\
         ((forall d, d ∈ displays live -> edid d <> edid s) -> name r = name s)) /\
  (forall cl : DisplayList, stored = Some cl ->
     ~ (forall e : string, e ∈ get_edids (displays live) -> e ∈ get_edids (displays cl)) ->
     select_displays stored live = displays live).
Proof.
  split; [by intros ->|]. split.
  - intros cl -> Hsub. rewrite (select_displays_stored _ _ Hsub).
    split; [by rewrite length_map|]. intros i s Hi.
    exists (set_name s (current_name (displays live) s)).
    split; [by rewrite list_lookup_fmap, Hi|].
    split; [done|]. simpl.
    split; [apply current_name_matched|].
    split; [intros k d; apply current_name_first|apply current_name_unmatched].
  - intros cl -> Hnot. by apply select_displays_live.
Qed.

Lemma select_displays_matcher_witness :
  (exists r : Display,
     select_displays (Some stored_demo) live_known !! 0%nat = Some r /\
     name r = "HDMI-1" /\ edid r = "B") /\
  select_displays (Some stored_demo) live_unknown = displays live_unknown.
Proof.
  destruct (select_displays_matcher (Some stored_demo) live_known) as (_ & Hin & _).
  destruct (select_displays_matcher (Some stored_demo) live_unknown) as (_ & _ & Hout).
  split.
  - destruct (Hin stored_demo eq_refl) as [_ Hnames].
    { apply (proj1 (issubset_spec _ _)). vm_compute. reflexivity. }
    destruct (Hnames 0%nat (mkDisplay "DP-2" None None None "B") eq_refl)
      as (r & Hr & (_ & _ & _ & Hedid) & _ & Hfirst & _).
    exists r. split; [exact Hr|]. split; [|exact Hedid].
    apply (Hfirst 1%nat (mkDisplay "HDMI-1" None None None "B")); [reflexivity..|].
    intros k' d' Hk' Hd'. destruct k' as [|k']; [|lia].
    injection Hd' as <-. discriminate.
  - apply (Hout stored_demo eq_refl).
    intros Hsub. pose proof (proj2 (issubset_spec _ _) Hsub) as Hb.
    vm_compute in Hb. discriminate.
Defined.

(** The example of the specification: stored EDIDs B, A, C.  With A and B
    connected the stored order is used and the names come from the live scan;
    with A and D connected the live list is used. *)
Example matcher_examples :
  select_displays (Some stored_demo) live_known
  = [mkDisplay "HDMI-1" None None None "B";
     mkDisplay "eDP-1" None None None "A";
     mkDisplay "DP-3" None None None "C"] /\
  select_displays (Some stored_demo) live_unknown = displays live_unknown.
Proof. split; reflexivity. Qed.

(** ** Status Parser: the loop over the lines *)

Lemma parse_lines_nil (st : ParseState) : parse_lines st [] = Some st.
Proof. done. Qed.

Lemma parse_lines_failed (lines : list string) :
  foldl (fun acc line => st' ← acc; parse_line st' line) None lines = None.
Proof. induction lines as [|l lines IH]; [done|]. simpl. exact IH. Qed.

Lemma parse_lines_cons (st : ParseState) (line : string) (lines : list string) :
  parse_lines st (line :: lines) = st' ← parse_line st line; parse_lines st' lines.
Proof.
  unfold parse_lines. simpl. destruct (parse_line st line); [done|].
  apply parse_lines_failed.
Qed.

Lemma parse_lines_app (st : ParseState) (pre post : list string) :
  parse_lines st (pre ++ post) = st' ← parse_lines st pre; parse_lines st' post.
Proof.
  revert st. induction pre as [|l pre IH]; intros st; [done|].
  rewrite <- app_comm_cons, !parse_lines_cons.
  destruct (parse_line st l) as [st1|]; [|done]. simpl. apply IH.
Qed.

(** The state after a disconnected line: the flag is reset, nothing else
    changes. *)
Lemma parse_line_disconnected (st : ParseState) (line : string) :
  contains "disconnected" line = true ->
  parse_line st line =
  Some (mkParseState (parsed_displays st) (edid_buffer st) (collect_lines st)
          (attribute_indentation st) false).
Proof. intros H. unfold parse_line. by rewrite H. Qed.

(** C6.  A line that contains the disconnected marker adds no display, in
    whatever state the parser is: the state after it is the state before it
    with the connected flag reset, and the lines after it are parsed from
    that state. *)
Theorem disconnected_line_no_record (st : ParseState) (line : string) :
  contains "disconnected" line = true ->
  (exists st' : ParseState,
     parse_line st line = Some st' /\
     parsed_displays st' = parsed_displays st /\
     last_connected st' = false /\
     edid_buffer st' = edid_buffer st /\
     collect_lines st' = collect_lines st /\
     attribute_indentation st' = attribute_indentation st) /\
  (forall (st0 : ParseState) (pre post : list string),
     parse_lines st0 pre = Some st ->
     parse_lines st0 (pre ++ line :: post)
     = parse_lines (mkParseState (parsed_displays st) (edid_buffer st)
                      (collect_lines st) (attribute_indentation st) false) post).
Proof.
  intros H. split.
  - eexists. split; [by apply parse_line_disconnected|]. done.
  - intros st0 pre post Hpre.
    rewrite parse_lines_app, Hpre. simpl.
    by rewrite parse_lines_cons, parse_line_disconnected.
Qed.

Lemma disconnected_line_no_record_witness :
  exists st' : ParseState,
    parse_line initial_state disconnected_demo = Some st' /\
    parsed_displays st' = parsed_displays initial_state /\
    last_connected st' = false /\
    edid_buffer st' = edid_buffer initial_state /\
    collect_lines st' = collect_lines initial_state /\
    attribute_indentation st' = attribute_indentation initial_state.
Proof.
  apply (disconnected_line_no_record initial_state disconnected_demo).
  reflexivity.
Defined.

(** A connected display followed by a disconnected one: one record. *)
Example parse_connected_then_disconnected :
  map name <$> (parsed_displays <$> parse_lines initial_state [connected_demo; disconnected_demo])
  = Some ["eDP-1"].
Proof. reflexivity. Qed.

(** ** Status Parser: the EDID block *)

Lemma contains_here (sub s : string) : startswith sub s = true -> contains sub s = true.
Proof. intros H. unfold contains. destruct s; simpl; by rewrite H. Qed.

Lemma contains_later (sub : string) (c : ascii) (s : string) :
  contains sub s = true -> contains sub (String c s) = true.
Proof.
  unfold contains. simpl. destruct (startswith sub (String c s)); [done|].
  by destruct (find sub s).
Qed.

Lemma startswith_contains_suffix (p q s : string) :
  startswith (p +:+ q) s = true -> contains q s = true.
Proof.
  revert s. induction p as [|a p IH]; intros s H; [by apply contains_here|].
  destruct s as [|b s]; [done|]. simpl in H.
  apply andb_true_iff in H as [_ H]. apply contains_later. by apply IH.
Qed.

(** A text that contains a word contains the ends of the word. *)
Lemma contains_suffix (p q s : string) :
  contains (p +:+ q) s = true -> contains q s = true.
Proof.
  induction s as [|c s IH]; intros H.
  - apply (startswith_contains_suffix p). unfold contains in H. simpl in H.
    by destruct (startswith (p +:+ q) "").
  - unfold contains in H. simpl in H.
    destruct (startswith (p +:+ q) (String c s)) eqn:Hs.
    + by apply (startswith_contains_suffix p).
    + apply contains_later, IH. unfold contains. by destruct (find (p +:+ q) s).
Qed.

Lemma not_connected_not_disconnected (line : string) :
  contains "connected" line = false -> contains "disconnected" line = false.
Proof.
  intros H. destruct (contains "disconnected" line) eqn:Hd; [|done].
  apply (contains_suffix "dis" "connected") in Hd. congruence.
Qed.

Lemma set_last_edid_snoc (ds : list Display) (d : Display) (e : string) :
  set_last_edid (ds ++ [d]) e = Some (ds ++ [set_edid d e]).
Proof.
  unfold set_last_edid. rewrite length_app. simpl.
  replace (Z.of_nat (length ds + 1) - 1) with (Z.of_nat (length ds)) by lia.
  rewrite py_index_nat, Nat2Z.id.
  rewrite lookup_app_r, Nat.sub_diag by lia. simpl.
  replace (length ds) with (length ds + 0)%nat at 1 by lia.
  by rewrite insert_app_r.
Qed.

Lemma set_last_edid_is_Some (ds : list Display) (e : string) :
  ds <> [] -> exists ds' d, ds = ds' ++ [d] /\ set_last_edid ds e = Some (ds' ++ [set_edid d e]).
Proof.
  intros Hne. destruct (exists_last Hne) as (ds' & d & ->).
  exists ds', d. split; [done|]. apply set_last_edid_snoc.
Qed.

Lemma parse_line_has_display (st st' : ParseState) (line : string) :
  has_display st -> parse_line st line = Some st' -> has_display st'.
Proof.
  unfold has_display, parse_line. intros Hinv Hstep.
  destruct (contains "disconnected" line).
  { injection Hstep as <-. simpl. intros [?|Hc]; [done|]. apply Hinv. by right. }
  destruct (contains "connected" line).
  { destruct (parse_connected line) as [d|]; [|done]. injection Hstep as <-. simpl.
    intros _. by destruct (parsed_displays st). }
  destruct (last_connected st && contains "EDID" line) eqn:Hedid.
  { destruct (find "EDID" line); [|done]. injection Hstep as <-. simpl.
    intros _. apply Hinv. left. by apply andb_true_iff in Hedid as [? _]. }
  destruct (collect_lines st) eqn:Hcollect; [|injection Hstep as <-; by rewrite Hcollect].
  destruct (Nat.eqb _ _).
  - destruct (set_last_edid_is_Some (parsed_displays st) (join (edid_buffer st)))
      as (ds & d & Heq & Hset); [apply Hinv; by right|].
    rewrite Hset in Hstep. injection Hstep as <-. simpl. intros _.
    by destruct ds.
  - injection Hstep as <-. simpl. intros _. apply Hinv. by right.
Qed.


Lemma initial_state_has_display : has_display initial_state.
Proof. intros [?|?]; done. Qed.

(** The marker line starts a collection with an empty buffer. *)
Lemma parse_line_marker (st : ParseState) (marker : string) (i : nat) :
  last_connected st = true ->
  contains "connected" marker = false ->
  find "EDID" marker = Some i ->
  parse_line st marker = Some (mkParseState (parsed_displays st) [] true i true).
Proof.
  intros Hlc Hnc Hfind. unfold parse_line.
  rewrite (not_connected_not_disconnected _ Hnc), Hnc, Hlc.
  unfold contains. rewrite Hfind. done.
Qed.

(** A line inside the block is stripped and appended to the buffer. *)
Lemma parse_line_collected (ds : list Display) (buffer : list string) (i : nat)
    (lc : bool) (line : string) :
  contains "connected" line = false ->
  contains "EDID" line = false ->
  indentation_of i line <> i ->
  parse_line (mkParseState ds buffer true i lc) line
  = Some (mkParseState ds (buffer ++ [strip line]) true i lc).
Proof.
  intros Hnc Hne Hind. unfold parse_line.
  rewrite (not_connected_not_disconnected _ Hnc), Hnc, Hne, andb_false_r. simpl.
  destruct (Nat.eqb_spec i (indentation_of i line)); [congruence|done].
Qed.

Lemma parse_lines_collected (block : list string) :
  forall (ds : list Display) (buffer : list string) (i : nat) (lc : bool),
    Forall (fun l => contains "connected" l = false /\ contains "EDID" l = false /\
                     indentation_of i l <> i) block ->
    parse_lines (mkParseState ds buffer true i lc) block
    = Some (mkParseState ds (buffer ++ map strip block) true i lc).
Proof.
  induction block as [|l block IH]; intros ds buffer i lc Hall.
  - by rewrite app_nil_r.
  - inversion Hall as [|? ? (Hnc & Hne & Hind) Hrest]; subst.
    rewrite parse_lines_cons, parse_line_collected by done. simpl.
    rewrite IH by done. by rewrite <- app_assoc.
Qed.

(** A line at the indentation of the marker ends the collection and gives
    the joined buffer to the display parsed last. *)
Lemma parse_line_stop (ds : list Display) (d : Display) (buffer : list string)
    (i : nat) (lc : bool) (stop : string) :
  contains "connected" stop = false ->
  contains "EDID" stop = false ->
  indentation_of i stop = i ->
  parse_line (mkParseState (ds ++ [d]) buffer true i lc) stop
  = Some (mkParseState (ds ++ [set_edid d (join buffer)]) buffer false i lc).
Proof.
  intros Hnc Hne Hind. unfold parse_line.
  rewrite (not_connected_not_disconnected _ Hnc), Hnc, Hne, andb_false_r. simpl.
  rewrite Hind, Nat.eqb_refl, set_last_edid_snoc. done.
Qed.

Lemma parse_lines_block (st : ParseState) (marker : string) (i : nat)
    (block : list string) :
  last_connected st = true ->
  contains "connected" marker = false ->
  find "EDID" marker = Some i ->
  Forall (collected_line i) block ->
  parse_lines st (marker :: block)
  = Some (mkParseState (parsed_displays st) (map strip block) true i true).
Proof.
  intros Hlc Hnc Hfind Hblock.
  rewrite parse_lines_cons, (parse_line_marker _ _ i) by done. simpl.
  by rewrite parse_lines_collected.
Qed.










(** The same lines as a status text, with a property line after them: the
    EDID of the display is the hexadecimal line and the deeper line. *)
Example parse_deeper_line_collected :
  parse (connected_demo +:+ String newline marker_demo +:+ String newline hex_demo
         +:+ String newline deeper_demo +:+ String newline property_demo)
  = Some (mkDisplayList
            [mkDisplay "eDP-1" (Some "1920x1080") (Some (mkOffset "+" "0"))
               (Some (mkOffset "+" "0")) "00ffffffffffff00range: (0, 15)"]).
Proof. reflexivity. Qed.

(** The block as the status command prints it. *)
Example parse_edid_block :
  parse (connected_demo +:+ String newline marker_demo +:+ String newline hex_demo
         +:+ String newline hex_demo +:+ String newline property_demo)
  = Some (mkDisplayList
            [mkDisplay "eDP-1" (Some "1920x1080") (Some (mkOffset "+" "0"))
               (Some (mkOffset "+" "0")) "00ffffffffffff0000ffffffffffff00"]).
Proof. reflexivity. Qed.

(** ** The grammar on the lines the status command prints *)

#[local] Arguments String.append s1 s2 : simpl nomatch.

Lemma append_assoc (a b c : string) : (a +:+ b) +:+ c = a +:+ (b +:+ c).
Proof. induction a as [|x a IH]; [done|]. simpl. f_equal. exact IH. Qed.

Lemma append_nil_r (a : string) : a +:+ "" = a.
Proof. induction a as [|x a IH]; [done|]. simpl. f_equal. exact IH. Qed.

Lemma length_append (a b : string) :
  String.length (a +:+ b) = (String.length a + String.length b)%nat.
Proof. induction a as [|x a IH]; [done|]. simpl. f_equal. exact IH. Qed.


Lemma text_not_ws (c : ascii) : Grammar.is_text c = true -> Grammar.is_ws c = false.
Proof. destruct c as [[] [] [] [] [] [] [] []]; by vm_compute. Qed.

Lemma digit_not_ws (c : ascii) : Grammar.is_digit c = true -> Grammar.is_ws c = false.
Proof. destruct c as [[] [] [] [] [] [] [] []]; by vm_compute. Qed.

Lemma span_lexeme (p : ascii -> bool) (tok rest : string) :
  all_chars p tok = true -> ends p rest = true ->
  Grammar.span p (tok +:+ rest) = (tok, rest).
Proof.
  intros Htok Hrest. induction tok as [|c tok IH]; simpl.
  - destruct rest as [|c rest]; [done|]. simpl in Hrest.
    simpl. by destruct (p c).
  - simpl in Htok. apply andb_true_iff in Htok as [-> Htok]. by rewrite IH.
Qed.

Lemma skip_ws_space (s : string) : Grammar.skip_ws (String " " s) = Grammar.skip_ws s.
Proof. unfold Grammar.skip_ws. simpl. by destruct (Grammar.span Grammar.is_ws s). Qed.

Lemma skip_ws_stays (c : ascii) (s : string) :
  Grammar.is_ws c = false -> Grammar.skip_ws (String c s) = String c s.
Proof. intros H. unfold Grammar.skip_ws. simpl. by rewrite H. Qed.

(** A lexeme is read whole, with or without a blank before it. *)
Lemma regexp_lexeme (p : ascii -> bool) (tok rest : string) :
  (forall c, p c = true -> Grammar.is_ws c = false) ->
  lexeme p tok = true -> ends p rest = true ->
  Grammar.regexp p (tok +:+ rest) = Some (tok, rest).
Proof.
  intros Hws Htok Hrest. unfold Grammar.regexp.
  destruct tok as [|c tok]; [done|]. simpl in Htok.
  pose proof Htok as Hc. apply andb_true_iff in Hc as [Hc _].
  change (String c tok +:+ rest) with (String c (tok +:+ rest)).
  rewrite skip_ws_stays by by apply Hws.
  change (String c (tok +:+ rest)) with (String c tok +:+ rest).
  by rewrite span_lexeme.
Qed.

Lemma regexp_space (p : ascii -> bool) (s : string) :
  Grammar.regexp p (String " " s) = Grammar.regexp p s.
Proof. unfold Grammar.regexp. by rewrite skip_ws_space. Qed.

Lemma NUMBER_lexeme (n rest : string) :
  is_NUMBER n = true -> ends Grammar.is_digit rest = true ->
  Grammar.NUMBER (n +:+ rest) = Some (n, rest).
Proof. apply regexp_lexeme, digit_not_ws. Qed.

Lemma NUMBER_space (s : string) : Grammar.NUMBER (String " " s) = Grammar.NUMBER s.
Proof. apply regexp_space. Qed.

Lemma TEXT_lexeme (t rest : string) :
  is_TEXT t = true -> ends Grammar.is_text rest = true ->
  Grammar.TEXT (t +:+ rest) = Some (t, rest).
Proof. apply regexp_lexeme, text_not_ws. Qed.

Lemma number_next_lexeme (n rest : string) :
  is_NUMBER n = true -> Grammar.number_next (n +:+ rest) = true.
Proof.
  destruct n as [|c n]; [done|]. simpl. intros H.
  apply andb_true_iff in H as [Hc _]. unfold Grammar.number_next.
  by rewrite skip_ws_stays by by apply digit_not_ws.
Qed.

Lemma number_next_space (s : string) :
  Grammar.number_next (String " " s) = Grammar.number_next s.
Proof. unfold Grammar.number_next. by rewrite skip_ws_space. Qed.

Lemma literal_space (lit s : string) : Grammar.literal lit (String " " s) = Grammar.literal lit s.
Proof. unfold Grammar.literal. by rewrite skip_ws_space. Qed.

(** [offset] on its text. *)
Lemma offset_text_parsed (o : Offset) (rest : string) :
  is_offset o = true -> ends Grammar.is_digit rest = true ->
  Grammar.offset (offset_text o +:+ rest) = Some (offset_tree o, rest).
Proof.
  destruct o as [d v]. unfold is_offset, offset_text, offset_tree. simpl.
  intros H Hrest. apply andb_true_iff in H as [Hd Hv].
  rewrite append_assoc.
  unfold Grammar.offset, Grammar.offset_value, Grammar.OFFSET_DIRECTION.
  unfold is_OFFSET_DIRECTION in Hd. apply orb_true_iff in Hd as [Hd|Hd];
    apply String.eqb_eq in Hd; subst d; simpl;
    unfold Grammar.literal; simpl; by rewrite NUMBER_lexeme.
Qed.

Lemma ends_offset_text (p : ascii -> bool) (o : Offset) (s : string) :
  p "+"%char = false -> p "-"%char = false ->
  is_offset o = true -> ends p (offset_text o +:+ s) = true.
Proof.
  intros Hplus Hminus H. destruct o as [d v]. unfold is_offset, offset_text in *.
  simpl in *. apply andb_true_iff in H as [Hd _].
  unfold is_OFFSET_DIRECTION in Hd. apply orb_true_iff in Hd as [Hd|Hd];
    apply String.eqb_eq in Hd; subst d; simpl; by rewrite ?Hplus, ?Hminus.
Qed.

(** [resolution_offset] on its text. *)
Lemma geometry_text_parsed (g : Geometry) (rest : string) :
  is_geometry g = true -> ends Grammar.is_digit rest = true ->
  Grammar.resolution_offset (geometry_text g +:+ rest) = Some (geometry_tree g, rest).
Proof.
  destruct g as [w h x y]. unfold is_geometry, geometry_text, geometry_tree. simpl.
  intros H Hrest.
  apply andb_true_iff in H as [H Hy]. apply andb_true_iff in H as [H Hx].
  apply andb_true_iff in H as [Hw Hh].
  repeat (simpl; rewrite ?append_assoc).
  unfold Grammar.resolution_offset, Grammar.pixels, Grammar.screen_offset.
  rewrite NUMBER_space, NUMBER_lexeme by done. simpl.
  rewrite NUMBER_lexeme by (try done; by apply ends_offset_text). simpl.
  rewrite offset_text_parsed by (try done; by apply ends_offset_text). simpl.
  by rewrite offset_text_parsed.
Qed.

(** The words of [orientation]. *)
Lemma word_parsed (w s : string) :
  is_word w = true -> Grammar.word (w +:+ s) = Some s.
Proof.
  unfold is_word. simpl. intros H.
  repeat (apply orb_true_iff in H as [H|H]); try done;
    apply String.eqb_eq in H; subst w; reflexivity.
Qed.

Lemma word_space (s : string) : Grammar.word (String " " s) = Grammar.word s.
Proof. unfold Grammar.word. simpl. by rewrite !literal_space. Qed.

Lemma more_words_parsed (flags : list string) :
  forall (fuel : nat) (s : string),
    forallb is_word flags = true -> (length flags <= fuel)%nat ->
    Grammar.more_words fuel (more_flags_text flags +:+ String ")" s) = String ")" s.
Proof.
  induction flags as [|w flags IH]; intros fuel s Hall Hfuel.
  - simpl. by destruct fuel.
  - destruct fuel as [|fuel]; [simpl in Hfuel; lia|].
    simpl in Hall. apply andb_true_iff in Hall as [Hw Hall].
    simpl more_flags_text. repeat (simpl; rewrite ?append_assoc).
    rewrite word_space, word_parsed by done.
    apply IH; [done|simpl in Hfuel; lia].
Qed.

Lemma length_more_flags_text (flags : list string) :
  (length flags <= String.length (more_flags_text flags))%nat.
Proof.
  induction flags as [|w flags IH]; [done|].
  simpl. rewrite length_append. lia.
Qed.

(** [orientation] on its text. *)
Lemma flags_text_parsed (flags : list string) (rest : string) :
  flags <> [] -> forallb is_word flags = true ->
  Grammar.orientation (" (" +:+ flags_text flags +:+ ")" +:+ rest)
  = Some (Tree "orientation" [], rest).
Proof.
  intros Hne Hall. destruct flags as [|w flags]; [done|].
  simpl in Hall. apply andb_true_iff in Hall as [Hw Hall].
  simpl flags_text. repeat (simpl; rewrite ?append_assoc).
  unfold Grammar.orientation. simpl.
  rewrite word_parsed by done. simpl.
  rewrite more_words_parsed; [done|done|].
  rewrite length_append. pose proof (length_more_flags_text flags). lia.
Qed.

(** [screen_size] on its text. *)
Lemma size_text_parsed (size : string * string) (rest : string) :
  is_size size = true ->
  Grammar.screen_size (size_text size +:+ rest) = Some (size_tree size, rest).
Proof.
  destruct size as [a b]. unfold is_size, size_text, size_tree. simpl.
  intros H. apply andb_true_iff in H as [Ha Hb].
  repeat (simpl; rewrite ?append_assoc).
  unfold Grammar.screen_size, Grammar.length.
  rewrite NUMBER_space, NUMBER_lexeme by done. simpl.
  rewrite NUMBER_space, NUMBER_lexeme by done. simpl.
  done.
Qed.

Lemma literal_primary_number (n s : string) :
  is_NUMBER n = true -> Grammar.literal "primary" (n +:+ s) = None.
Proof.
  destruct n as [|c n]; [done|]. simpl. intros H.
  apply andb_true_iff in H as [Hc _]. unfold Grammar.literal.
  rewrite skip_ws_stays by by apply digit_not_ws. simpl.
  destruct c as [[] [] [] [] [] [] [] []]; by vm_compute in Hc |- *.
Qed.

(** After [connected], with or without [primary], the parser stands before
    the rest of the line. *)
Lemma primary_parsed (primary : bool) (rest : string) :
  Grammar.literal "primary" rest = None ->
  default ((if primary then " primary" else "") +:+ rest)
    (Grammar.literal "primary" ((if primary then " primary" else "") +:+ rest))
  = rest.
Proof. intros H. destruct primary; simpl; [done|]. by rewrite H. Qed.

Lemma geometry_text_starts (g : Geometry) (rest : string) :
  is_geometry g = true ->
  Grammar.number_next (geometry_text g +:+ rest) = true /\
  Grammar.literal "primary" (geometry_text g +:+ rest) = None.
Proof.
  destruct g as [w h x y]. unfold is_geometry, geometry_text. simpl. intros H.
  apply andb_true_iff in H as [H _]. apply andb_true_iff in H as [H _].
  apply andb_true_iff in H as [Hw _].
  repeat (simpl; rewrite ?append_assoc).
  by rewrite number_next_space, number_next_lexeme, literal_space,
    literal_primary_number.
Qed.

(** [resolution_offset?] on its text, before the orientation. *)
Lemma opt_geometry_parsed (geometry : option Geometry) (rest : string) :
  match geometry with Some g => is_geometry g | None => true end = true ->
  Grammar.if_number Grammar.resolution_offset
    (opt_text geometry_text geometry +:+ String " " (String "(" rest))
  = Some (opt_tree geometry_tree geometry, String " " (String "(" rest)).
Proof.
  intros H. unfold Grammar.if_number. destruct geometry as [g|]; [|done].
  cbn [opt_text opt_tree].
  rewrite (proj1 (geometry_text_starts g _ H)).
  by rewrite geometry_text_parsed.
Qed.

Lemma size_text_starts (sz : string * string) (rest : string) :
  is_size sz = true -> Grammar.number_next (size_text sz +:+ rest) = true.
Proof.
  destruct sz as [a b]. unfold is_size, size_text. simpl. intros H.
  apply andb_true_iff in H as [Ha _].
  repeat (simpl; rewrite ?append_assoc).
  by rewrite number_next_space, number_next_lexeme.
Qed.

(** [screen_size?] on its text, at the end of the line. *)
Lemma opt_size_parsed (size : option (string * string)) :
  match size with Some sz => is_size sz | None => true end = true ->
  Grammar.if_number Grammar.screen_size (opt_text size_text size)
  = Some (opt_tree size_tree size, "").
Proof.
  intros H. unfold Grammar.if_number. destruct size as [sz|]; [|done].
  cbn [opt_text opt_tree].
  rewrite <- (append_nil_r (size_text sz)).
  rewrite size_text_starts by done.
  by rewrite size_text_parsed.
Qed.

Lemma literal_primary_rest (geometry : option Geometry) (rest : string) :
  match geometry with Some g => is_geometry g | None => true end = true ->
  Grammar.literal "primary"
    (opt_text geometry_text geometry +:+ String " " (String "(" rest)) = None.
Proof.
  intros H. destruct geometry as [g|]; [|done].
  cbn [opt_text]. by apply geometry_text_starts.
Qed.

(** The parser on a line of the status command: the tree of the line. *)
Lemma connected_line_parsed (output : string) (primary : bool)
    (geometry : option Geometry) (flags : list string)
    (size : option (string * string)) :
  well_formed output geometry flags size = true ->
  Grammar.parse (connected_line output primary geometry flags size)
  = Some (line_tree output geometry size).
Proof.
  unfold well_formed. intros H.
  apply andb_true_iff in H as [H Hsize]. apply andb_true_iff in H as [H Hflags].
  apply andb_true_iff in H as [Hout Hgeo].
  assert (Hne : flags <> []) by by destruct flags.
  assert (Hall : forallb is_word flags = true) by by destruct flags.
  unfold Grammar.parse, Grammar.start, Grammar.output, connected_line.
  rewrite TEXT_lexeme by done. simpl.
  rewrite primary_parsed by by apply literal_primary_rest.
  rewrite opt_geometry_parsed by done. simpl.
  change (String " " (String "(" (flags_text flags +:+ String ")" (opt_text size_text size))))
    with (" (" +:+ flags_text flags +:+ ")" +:+ opt_text size_text size).
  rewrite flags_text_parsed by done. simpl.
  rewrite opt_size_parsed by done. done.
Qed.

(** [parse_display] on the tree of a line. *)
Lemma parse_display_line_tree (output : string) (geometry : option Geometry)
    (size : option (string * string)) :
  parse_display (line_tree output geometry size) = Some (display_of output geometry).
Proof. destruct geometry as [[w h [xd xv] [yd yv]]|], size; reflexivity. Qed.

(** C7.  A connected-display line in the form the status command prints it,
    with or without [primary], with or without a current mode, with its
    orientation flags, with or without a physical size, is parsed into the
    display with the name of the line, the resolution ["WxH"] and the two
    offsets of its mode, or with none of them when the line has no mode. *)
Theorem connected_line_lossless (output : string) (primary : bool)
    (geometry : option Geometry) (flags : list string)
    (size : option (string * string)) :
  well_formed output geometry flags size = true ->
  parse_connected (connected_line output primary geometry flags size)
  = Some (display_of output geometry).
Proof.
  intros H. unfold parse_connected.
  rewrite connected_line_parsed by done. simpl.
  apply parse_display_line_tree.
Qed.

Lemma connected_line_lossless_witness :
  parse_connected
    "eDP-1 connected primary 1920x1080+0+0 (normal left inverted right x axis y) 310mm x 170mm"
  = Some (mkDisplay "eDP-1" (Some "1920x1080") (Some (mkOffset "+" "0"))
            (Some (mkOffset "+" "0")) "").
Proof.
  apply (connected_line_lossless "eDP-1" true
           (Some (mkGeometry "1920" "1080" (mkOffset "+" "0") (mkOffset "+" "0")))
           all_flags (Some ("310", "170"))).
  reflexivity.
Defined.

(** The line of the specification, run through the parser. *)
Example parse_connected_demo :
  parse_connected connected_demo
  = Some (mkDisplay "eDP-1" (Some "1920x1080") (Some (mkOffset "+" "0"))
            (Some (mkOffset "+" "0")) "").
Proof. reflexivity. Qed.

(** A connected display without a current mode. *)
Example parse_connected_inactive :
  parse_connected "HDMI-1 connected (normal left inverted right x axis y)"
  = Some (inactive "HDMI-1").
Proof. reflexivity. Qed.

(** On every line the grammar accepts, [parse_display] returns a display:
    the tree has the children it subscripts. *)
Lemma parse_display_total (line : string) (t : node) :
  Grammar.parse line = Some t -> is_Some (parse_display t).
Proof.
  unfold Grammar.parse, Grammar.start, Grammar.if_number, Grammar.output,
    Grammar.orientation, Grammar.resolution_offset, Grammar.screen_size,
    Grammar.length, Grammar.pixels, Grammar.screen_offset, Grammar.offset,
    Grammar.offset_value.
  intros H. repeat (simplify_option_eq; repeat case_match); by eexists.
Qed.

Lemma contains_append (sub a s : string) :
  contains sub s = true -> contains sub (a +:+ s) = true.
Proof.
  intros H. induction a as [|c a IH]; [done|].
  simpl. by apply contains_later.
Qed.

(** In the loop such a line adds its display, unless its name holds the
    disconnected marker. *)
Lemma parse_line_connected_line (st : ParseState) (output : string) (primary : bool)
    (geometry : option Geometry) (flags : list string)
    (size : option (string * string)) :
  well_formed output geometry flags size = true ->
  contains "disconnected" (connected_line output primary geometry flags size) = false ->
  parse_line st (connected_line output primary geometry flags size)
  = Some (mkParseState (parsed_displays st ++ [display_of output geometry])
            (edid_buffer st) (collect_lines st) (attribute_indentation st) true).
Proof.
  intros Hwf Hdis. unfold parse_line. rewrite Hdis.
  unfold parse_connected. rewrite connected_line_parsed by done. simpl.
  rewrite parse_display_line_tree. simpl.
  assert (contains "connected" (connected_line output primary geometry flags size) = true)
    as ->; [|done].
  unfold connected_line. apply contains_append. simpl.
  by apply contains_later, contains_here.
Qed.

(** * Further properties *)

(** ** Command Builder: the other modes *)

(** Two loops whose bodies agree on the displays they visit build the same
    directives. *)
Lemma configure_loop_ext (all1 all2 : list Display) (m1 m2 : DisplayMode)
    (ea1 ea2 : bool) (dir1 dir2 : string) (rest : list Display) :
  forall k : Z,
    (forall (i : nat) (d : Display), rest !! i = Some d ->
       configure_body all1 m1 ea1 dir1 (k + Z.of_nat i) d
       = configure_body all2 m2 ea2 dir2 (k + Z.of_nat i) d) ->
    configure_loop all1 m1 ea1 dir1 k rest = configure_loop all2 m2 ea2 dir2 k rest.
Proof.
  induction rest as [|d0 rest IH]; intros k Hbody; [done|].
  simpl. pose proof (Hbody 0%nat d0 eq_refl) as H0.
  replace (k + Z.of_nat 0) with k in H0 by lia. rewrite H0.
  rewrite (IH (k + 1)); [done|].
  intros i d Hi. replace (k + 1 + Z.of_nat i) with (k + Z.of_nat (S i)) by lia.
  by apply Hbody.
Qed.





(** CLONE and INTERNAL_ONLY read neither the [extend_all] flag nor the
    direction; the other two modes build the same command for the first two
    displays with and without [extend_all]. *)
Theorem configure_flag_without_effect (ds : list Display) (ea ea' : bool)
    (dir dir' : string) :
  configure ds CLONE ea dir = configure ds CLONE ea' dir' /\
  configure ds INTERNAL_ONLY ea dir = configure ds INTERNAL_ONLY ea' dir' /\
  ((length ds <= 2)%nat ->
   configure ds INTERNAL_EXTEND ea dir = configure ds INTERNAL_EXTEND ea' dir).
Proof.
  unfold configure, directives. split; [|split].
  - rewrite (configure_loop_ext ds ds CLONE CLONE ea ea' dir dir' ds 0); [done|].
    intros i d _. rewrite !Z.add_0_l. by rewrite !clone_body.
  - rewrite (configure_loop_ext ds ds INTERNAL_ONLY INTERNAL_ONLY ea ea' dir dir' ds 0);
      [done|].
    intros i d _. rewrite !Z.add_0_l. by rewrite !internal_only_body.
  - intros Hlen.
    rewrite (configure_loop_ext ds ds INTERNAL_EXTEND INTERNAL_EXTEND ea ea' dir dir ds 0);
      [done|].
    intros i d Hi. rewrite !Z.add_0_l, !internal_extend_body.
    apply lookup_lt_Some in Hi. by destruct i as [|[|i]]; [| |lia].
Qed.

Lemma configure_flag_without_effect_witness :
  configure ext_demo INTERNAL_EXTEND true "left"
  = configure ext_demo INTERNAL_EXTEND false "left".
Proof.
  apply (configure_flag_without_effect ext_demo true false "left" "left").
  simpl. lia.
Defined.

(** With no display in the list the command is the bare tool name, in every
    mode. *)
Theorem configure_no_display (m : DisplayMode) (ea : bool) (dir : string) :
  configure [] m ea dir = Some "xrandr".
Proof. done. Qed.

(** With the internal display alone, EXTERNAL_ONLY without [extend_all]
    switches it off, twice, and nothing on. *)
Theorem external_only_single_display (d : Display) (dir : string) :
  configure [d] EXTERNAL_ONLY false dir
  = Some ("xrandr --output " +:+ name d +:+ " --off --off") /\
  directives [d] EXTERNAL_ONLY true dir
  = Some [[Output (name d); Off; AutoDirOf dir (name d)]].
Proof.
  split; [|done]. unfold configure. simpl. f_equal.
  induction (name d) as [|c n IH]; [done|].
  simpl in *. by injection IH as ->.
Qed.



(** ** [rotate] for every count *)

Lemma py_clamp_le (len i : Z) : 0 <= len -> (py_clamp len i <= Z.to_nat len)%nat.
Proof. unfold py_clamp. destruct (i <? 0); lia. Qed.

(** The two slices of [rotate] cut the list at one place. *)
Lemma rotate_cut {A : Type} (l : list A) (n : Z) :
  rotate l n = drop (py_clamp (Z.of_nat (length l)) (- n)) l
               ++ take (py_clamp (Z.of_nat (length l)) (- n)) l.
Proof. done. Qed.

Lemma py_clamp_rotate (len : nat) (n : Z) :
  py_clamp (Z.of_nat len) (- n)
  = if 0 <? n then (len - Z.to_nat n)%nat else Nat.min len (Z.to_nat (- n)).
Proof.
  unfold py_clamp.
  destruct (Z.ltb_spec 0 n), (Z.ltb_spec (- n) 0); lia.
Qed.

Lemma rotate_perm {A : Type} (l : list A) (n : Z) : rotate l n ≡ₚ l.
Proof. rewrite rotate_cut, Permutation_app_comm. by rewrite take_drop. Qed.

Lemma rotate_length {A : Type} (l : list A) (n : Z) : length (rotate l n) = length l.
Proof. by rewrite rotate_perm. Qed.

(** [rotate] keeps the elements and their number, whatever the count. *)
Theorem rotate_permutation {A : Type} (l : list A) (n : Z) :
  rotate l n ≡ₚ l /\ length (rotate l n) = length l.
Proof. split; [apply rotate_perm|apply rotate_length]. Qed.

(** A count of zero, or one that reaches the length of the list in either
    direction, leaves the list as it is: the slices do not wrap around. *)
Theorem rotate_out_of_range {A : Type} (l : list A) (n : Z) :
  n = 0 \/ Z.of_nat (length l) <= n \/ n <= - Z.of_nat (length l) ->
  rotate l n = l.
Proof.
  intros Hn. rewrite rotate_cut, py_clamp_rotate.
  destruct (Z.ltb_spec 0 n).
  - replace (length l - Z.to_nat n)%nat with 0%nat by lia.
    simpl. by rewrite drop_0, app_nil_r.
  - destruct (decide (n = 0)) as [->|Hne].
    + simpl. rewrite Nat.min_0_r. simpl. by rewrite drop_0, app_nil_r.
    + replace (Nat.min (length l) (Z.to_nat (- n))) with (length l) by lia.
      by rewrite drop_all, take_ge by lia.
Qed.

Lemma rotate_out_of_range_witness :
  rotate three_demo 4 = three_demo.
Proof. apply (rotate_out_of_range three_demo 4). simpl. lia. Defined.

(** Within the list a positive count moves that many elements from the end
    to the front, a negative count from the front to the end; the one undoes
    the other, and rotating by one [k] times is rotating by [k]. *)
Theorem rotate_in_range (l : list Display) (k : nat) :
  (k <= length l)%nat ->
  rotate l (Z.of_nat k) = drop (length l - k) l ++ take (length l - k) l /\
  rotate l (- Z.of_nat k) = drop k l ++ take k l /\
  rotate (rotate l (Z.of_nat k)) (- Z.of_nat k) = l /\
  candidate l k = rotate l (Z.of_nat k).
Proof.
  intros Hk.
  assert (Hpos : rotate l (Z.of_nat k) = drop (length l - k) l ++ take (length l - k) l).
  { rewrite rotate_cut, py_clamp_rotate.
    destruct (Z.ltb_spec 0 (Z.of_nat k)).
    - by rewrite Nat2Z.id.
    - replace k with 0%nat by lia. simpl. rewrite Nat.min_0_r, Nat.sub_0_r.
      simpl. rewrite drop_all, (take_ge l (length l)), drop_0 by lia.
      simpl. by rewrite app_nil_r. }
  assert (Hneg : forall l' : list Display, (k <= length l')%nat ->
            rotate l' (- Z.of_nat k) = drop k l' ++ take k l').
  { intros l' Hk'. rewrite rotate_cut, py_clamp_rotate.
    destruct (Z.ltb_spec 0 (- Z.of_nat k)); [lia|].
    by replace (Nat.min (length l') (Z.to_nat (- - Z.of_nat k))) with k by lia. }
  split; [done|]. split; [by apply Hneg|]. split.
  - rewrite Hneg by (rewrite rotate_length; lia).
    rewrite Hpos.
    rewrite drop_app_length', take_app_length' by (rewrite length_drop; lia).
    apply take_drop.
  - rewrite Hpos. by apply candidate_drop_take.
Qed.

Lemma rotate_in_range_witness :
  rotate three_demo (Z.of_nat 2) = drop (3 - 2) three_demo ++ take (3 - 2) three_demo /\
  rotate three_demo (- Z.of_nat 2) = drop 2 three_demo ++ take 2 three_demo /\
  rotate (rotate three_demo (Z.of_nat 2)) (- Z.of_nat 2) = three_demo /\
  candidate three_demo 2 = rotate three_demo (Z.of_nat 2).
Proof. apply (rotate_in_range three_demo 2). simpl. lia. Defined.

(** ** Setup Wizard: any answers, and the store *)

Lemma candidate_perm (l : list Display) (k : nat) : candidate l k ≡ₚ l.
Proof.
  induction k as [|k IH]; [done|].
  rewrite candidate_S, rotate_perm. exact IH.
Qed.

Lemma setup_loop_run (answers : list string) (l : list Display) :
  proposals (setup_loop l answers)
  = map (candidate l) (seq 0 (S (rejections answers))) /\
  accepted (setup_loop l answers)
  = (if confirmed answers then Some (candidate l (rejections answers)) else None).
Proof.
  revert l. induction answers as [|a answers IH]; intros l; [done|].
  change (confirmed (a :: answers)) with (String.eqb "y" a || confirmed answers).
  cbn [setup_loop rejections].
  destruct (String.eqb "y" a) eqn:Hy; [done|].
  destruct (String.eqb "n" a) eqn:Hn.
  - destruct (IH (rotate l 1)) as [IHp IHa]. cbn [proposals accepted orb]. split.
    + rewrite IHp.
      change (seq 0 (S (S (rejections answers))))
        with (0%nat :: seq 1 (S (rejections answers))).
      rewrite <- seq_shift, map_cons, map_map. f_equal.
      apply map_ext. intros j. apply candidate_rotate.
    + rewrite IHa. destruct (confirmed answers); [|done].
      f_equal. apply candidate_rotate.
  - apply IH.
Qed.

(** Whatever is typed at the prompt, the proposals are the list rotated 0, 1,
    ..., [k] times, [k] the number of [n] answers before the first [y];
    answers other than [y] and [n] count for nothing; the order persisted is
    the last proposal, and none is persisted without a [y]. *)
Theorem setup_loop_answers (answers : list string) (l : list Display) :
  proposals (setup_loop l answers)
  = map (candidate l) (seq 0 (S (rejections answers))) /\
  accepted (setup_loop l answers)
  = (if confirmed answers then Some (candidate l (rejections answers)) else None).
Proof. apply setup_loop_run. Qed.

Lemma setup_accepted (w : World) (current_displays : DisplayList)
    (answers : list string) :
  confirmed answers = true ->
  setup w current_displays answers
  = (to_json w (mkDisplayList (candidate (displays current_displays)
                                 (rejections answers))),
     setup_loop (displays current_displays) answers).
Proof.
  intros Hy. unfold setup.
  destruct (setup_loop_run answers (displays current_displays)) as [_ Ha].
  rewrite Hy in Ha. by rewrite Ha.
Qed.

(** When every connected display has its offsets, what a confirmed setup
    has written is read back as the confirmed order. *)
Theorem setup_then_load (w : World) (current_displays : DisplayList)
    (answers : list string) :
  confirmed answers = true ->
  Forall has_offsets (displays current_displays) ->
  from_json (fst (setup w current_displays answers))
  = (fst (setup w current_displays answers),
     Returns (Some (mkDisplayList (candidate (displays current_displays)
                                     (rejections answers))))).
Proof.
  intros Hy Hall. rewrite setup_accepted by done. simpl.
  apply store_round_trip_offsets. simpl.
  by rewrite candidate_perm.
Qed.

Lemma setup_then_load_witness :
  from_json (fst (setup demo_world (mkDisplayList three_demo) ["n"; "maybe"; "y"]))
  = (fst (setup demo_world (mkDisplayList three_demo) ["n"; "maybe"; "y"]),
     Returns (Some (mkDisplayList (candidate three_demo 1)))).
Proof.
  apply (setup_then_load demo_world (mkDisplayList three_demo) ["n"; "maybe"; "y"]).
  - reflexivity.
  - repeat constructor; by eexists.
Defined.

(** The displays are parsed before the trial command runs.  When one of them
    is connected without a mode, a confirmed setup writes [null] for its
    offsets, and from then on every run that configures displays raises while
    it loads the file, whatever its options and whatever is connected. *)
Theorem setup_with_inactive_display (w : World) (current_displays : DisplayList)
    (answers : list string) (args : Args) (later_displays : DisplayList) :
  confirmed answers = true ->
  Exists lacks_offset (displays current_displays) ->
  from_json (fst (setup w current_displays answers))
  = (fst (setup w current_displays answers), Raises) /\
  main_configure (fst (setup w current_displays answers)) args later_displays = Raises.
Proof.
  intros Hy Hex. rewrite setup_accepted by done. simpl.
  assert (Hload : from_json (to_json w (mkDisplayList
                     (candidate (displays current_displays) (rejections answers))))
                  = (to_json w (mkDisplayList
                       (candidate (displays current_displays) (rejections answers))),
                     Raises)).
  { rewrite from_json_to_json. f_equal.
    unfold load_DisplayList, DisplayList_from_json, DisplayList_to_json. simpl.
    rewrite load_absent_offset; [done|]. by rewrite candidate_perm. }
  split; [done|]. unfold main_configure. by rewrite Hload.
Qed.

Lemma setup_with_inactive_display_witness :
  from_json (fst (setup demo_world (mkDisplayList [active "eDP-1"; inactive "HDMI-1"]) ["y"]))
  = (fst (setup demo_world (mkDisplayList [active "eDP-1"; inactive "HDMI-1"]) ["y"]),
     Raises) /\
  main_configure
    (fst (setup demo_world (mkDisplayList [active "eDP-1"; inactive "HDMI-1"]) ["y"]))
    (mkArgs false false true false false false) (mkDisplayList ext_demo) = Raises.
Proof.
  apply (setup_with_inactive_display demo_world
           (mkDisplayList [active "eDP-1"; inactive "HDMI-1"]) ["y"]).
  - reflexivity.
  - apply Exists_cons_tl, Exists_cons_hd. by left.
Defined.

(** ** Configuration Store: documents not written by the store *)

Lemma members_get_other (key k : string) (v : json) (members : list (string * json)) :
  k <> key -> members_get key ((k, v) :: members) = members_get key members.
Proof.
  intros Hne. simpl. destruct (members_get key members); [done|].
  by destruct (String.eqb_spec k key).
Qed.

Lemma members_get_snoc (key k : string) (v : json) (members : list (string * json)) :
  members_get key (members ++ [(k, v)])
  = if String.eqb k key then Some v else members_get key members.
Proof.
  induction members as [|[k' v'] members IH]; simpl.
  - by destruct (String.eqb k key).
  - rewrite IH. by destruct (String.eqb k key).
Qed.

(** [Display.from_json] reads its five members and ignores any other, while
    [Offset.from_json] raises on a member that is not a parameter of
    [Offset]. *)
Theorem unknown_member (k : string) (v : json) (members : list (string * json)) :
  (k ∉ display_members ->
   Display_from_json (JObject ((k, v) :: members)) = Display_from_json (JObject members)) /\
  (k <> "direction" -> k <> "offset" ->
   Offset_from_json (JObject ((k, v) :: members)) = None).
Proof.
  split.
  - intros Hk. unfold Display_from_json, getitem.
    rewrite !members_get_other; [done|..];
      intros ->; apply Hk; unfold display_members; set_solver.
  - intros Hd Ho. unfold Offset_from_json. simpl.
    destruct (String.eqb_spec k "direction"); [done|].
    by destruct (String.eqb_spec k "offset").
Qed.

Lemma unknown_member_witness :
  Display_from_json (JObject (("primary", JBool true) :: [("name", JString "eDP-1")]))
  = Display_from_json (JObject [("name", JString "eDP-1")]) /\
  Offset_from_json (JObject (("unit", JString "px")
                               :: [("direction", JString "+"); ("offset", JString "0")]))
  = None.
Proof.
  destruct (unknown_member "primary" (JBool true) [("name", JString "eDP-1")])
    as [Hdisplay _].
  destruct (unknown_member "unit" (JString "px")
              [("direction", JString "+"); ("offset", JString "0")]) as [_ Hoffset].
  split.
  - apply Hdisplay. unfold display_members. intros Hin.
    repeat (apply elem_of_cons in Hin as [Hin|Hin]; [discriminate|]).
    by apply elem_of_nil in Hin.
  - apply Hoffset; discriminate.
Defined.

(** Each of the five members is needed: a display written by the store and
    stripped of any one of them is not read back, the read raises. *)
Theorem missing_member (d : Display) (key : string) :
  key ∈ display_members ->
  Display_from_json (without_member key (Display_to_json d)) = None.
Proof.
  unfold display_members. intros Hin.
  destruct d as [n r [[xd xo]|] [[yd yo]|] e];
    repeat (apply elem_of_cons in Hin as [->|Hin]; [reflexivity|]);
    by apply elem_of_nil in Hin.
Qed.

Lemma missing_member_witness :
  Display_from_json (without_member "edid" (Display_to_json (active "eDP-1"))) = None.
Proof.
  apply (missing_member (active "eDP-1") "edid").
  unfold display_members. set_solver.
Defined.

(** An [edid] of [null] is read as the empty string: the two documents give
    the same display. *)
Theorem null_edid_read_as_empty (members : list (string * json)) :
  Display_from_json (JObject (members ++ [("edid", JNull)]))
  = Display_from_json (JObject (members ++ [("edid", JString "")])).
Proof.
  unfold Display_from_json, getitem. rewrite !members_get_snoc. simpl.
  destruct (members_get "x_offset" members) as [xj|]; [|done]. simpl.
  destruct (Offset_from_json xj); [|done]. simpl.
  destruct (members_get "y_offset" members) as [yj|]; [|done]. simpl.
  destruct (Offset_from_json yj); [|done]. simpl.
  destruct (members_get "name" members); [|done]. simpl.
  by destruct (members_get "resolution" members).
Qed.

(** ** Display Matcher: edge cases *)

Lemma set_name_same (d : Display) : set_name d (name d) = d.
Proof. by destruct d. Qed.

Lemma issubset_nil (config_edids : list string) : issubset [] config_edids = true.
Proof. apply issubset_spec. intros e He. by apply elem_of_nil in He. Qed.

(** With no display connected the stored list is used as it is stored, names
    included. *)
Theorem select_displays_nothing_connected (cl : DisplayList) :
  select_displays (Some cl) (mkDisplayList []) = displays cl.
Proof.
  unfold select_displays. simpl. rewrite issubset_nil.
  induction (displays cl) as [|s ss IH]; [done|].
  simpl. rewrite IH. f_equal. apply set_name_same.
Qed.

Lemma current_name_by_edid (current : list Display) (s : Display) (e : string) :
  edid s = e ->
  current_name current s
  = default (name s) (head (map name (filter (fun d => edid d = e) current))).
Proof. by intros <-. Qed.

Lemma matched_head (current : list Display) (e : string) :
  (exists d, d ∈ current /\ edid d = e) ->
  is_Some (head (map name (filter (fun d => edid d = e) current))).
Proof.
  intros (d & Hd & He).
  assert (Hin : d ∈ filter (fun d => edid d = e) current)
    by by apply list_elem_of_filter.
  destruct (filter (fun d => edid d = e) current) as [|c cs];
    [by apply elem_of_nil in Hin|by eexists].
Qed.

(** Stored displays with one EDID are told apart by nothing but their stored
    names: when that EDID is connected they all get one name, that of the
    first live display with the EDID, so the command names one output more
    than once. *)
Theorem same_edid_same_name (cl live : DisplayList) (i j : nat) (s1 s2 : Display) :
  (forall e : string, e ∈ get_edids (displays live) -> e ∈ get_edids (displays cl)) ->
  displays cl !! i = Some s1 ->
  displays cl !! j = Some s2 ->
  edid s1 = edid s2 ->
  (exists d, d ∈ displays live /\ edid d = edid s1) ->
  exists r1 r2 : Display,
    select_displays (Some cl) live !! i = Some r1 /\
    select_displays (Some cl) live !! j = Some r2 /\
    name r1 = name r2 /\
    same_but_name s1 r1 /\ same_but_name s2 r2 /\
    (forall (k : nat) (d : Display),
       displays live !! k = Some d -> edid d = edid s1 ->
       (forall (k' : nat) (d' : Display), (k' < k)%nat ->
          displays live !! k' = Some d' -> edid d' <> edid s1) ->
       name r1 = name d /\ name r2 = name d).
Proof.
  intros Hsub Hi Hj He Hlive.
  rewrite (select_displays_stored _ _ Hsub).
  assert (Hsame : current_name (displays live) s2 = current_name (displays live) s1).
  { rewrite (current_name_by_edid _ s2 (edid s1)) by done.
    rewrite (current_name_by_edid _ s1 (edid s1)) by done.
    destruct (matched_head _ _ Hlive) as [n ->]. done. }
  exists (set_name s1 (current_name (displays live) s1)),
    (set_name s2 (current_name (displays live) s2)).
  rewrite !list_lookup_fmap, Hi, Hj. simpl.
  split; [done|]. split; [done|]. split; [done|]. split; [done|]. split; [done|].
  intros k d Hk Hd Hfirst. rewrite Hsame.
  by rewrite (current_name_first _ s1 k d Hk Hd Hfirst).
Qed.

Lemma same_edid_same_name_witness :
  exists r1 r2 : Display,
    select_displays
      (Some (mkDisplayList [mkDisplay "DP-1" None None None "A";
                            mkDisplay "DP-2" None None None "A"]))
      (mkDisplayList [mkDisplay "HDMI-1" None None None "A"]) !! 0%nat = Some r1 /\
    select_displays
      (Some (mkDisplayList [mkDisplay "DP-1" None None None "A";
                            mkDisplay "DP-2" None None None "A"]))
      (mkDisplayList [mkDisplay "HDMI-1" None None None "A"]) !! 1%nat = Some r2 /\
    name r1 = "HDMI-1" /\ name r2 = "HDMI-1".
Proof.
  destruct (same_edid_same_name
              (mkDisplayList [mkDisplay "DP-1" None None None "A";
                              mkDisplay "DP-2" None None None "A"])
              (mkDisplayList [mkDisplay "HDMI-1" None None None "A"]) 0 1
              (mkDisplay "DP-1" None None None "A")
              (mkDisplay "DP-2" None None None "A"))
    as (r1 & r2 & H1 & H2 & _ & _ & _ & Hfirst).
  - apply issubset_spec. vm_compute. reflexivity.
  - reflexivity.
  - reflexivity.
  - reflexivity.
  - exists (mkDisplay "HDMI-1" None None None "A"). split; [simpl; set_solver|reflexivity].
  - exists r1, r2. split; [exact H1|]. split; [exact H2|].
    apply (Hfirst 0%nat (mkDisplay "HDMI-1" None None None "A")); [reflexivity..|].
    intros k' d' Hk'. lia.
Defined.

(** ** [main]: the branch that configures *)

Lemma dispatch_is_Some (args : Args) (ds : list Display) :
  exists a : Action,
    dispatch args ds = Some a /\
    (a = NotImplemented <->
     arg_internal args = false /\ arg_clone args = false /\
     arg_extend args = false /\ arg_external args = false).
Proof.
  unfold dispatch, configure.
  destruct (directives_is_Some ds INTERNAL_ONLY false "right") as [d1 H1].
  destruct (directives_is_Some ds CLONE false "right") as [d2 H2].
  destruct (directives_is_Some ds INTERNAL_EXTEND (arg_all args) (extend_direction args))
    as [d3 H3].
  destruct (directives_is_Some ds EXTERNAL_ONLY (arg_all args) (extend_direction args))
    as [d4 H4].
  rewrite H1, H2, H3, H4. simpl.
  destruct (arg_internal args), (arg_clone args), (arg_extend args),
    (arg_external args); eexists; (split; [reflexivity|]); split;
    try done; intros (? & ? & ? & ?); done.
Qed.

(** Once the stored configuration is loaded, or found absent, the branch
    raises nothing: it ends in a command, or in the message when none of the
    four actions is asked for. *)
Theorem main_configure_returns (w : World) (args : Args) (current_displays : DisplayList)
    (configuration_list : option DisplayList) :
  snd (from_json w) = Returns configuration_list ->
  exists a : Action,
    main_configure w args current_displays = Returns a /\
    (a = NotImplemented <->
     arg_internal args = false /\ arg_clone args = false /\
     arg_extend args = false /\ arg_external args = false).
Proof.
  intros Hload. unfold main_configure. rewrite Hload.
  destruct (dispatch_is_Some args (select_displays configuration_list current_displays))
    as (a & -> & Ha).
  by exists a.
Qed.

Lemma main_configure_returns_witness :
  exists a : Action,
    main_configure demo_world (mkArgs false false true false true true)
      (mkDisplayList three_demo) = Returns a /\
    (a = NotImplemented <->
     arg_internal (mkArgs false false true false true true) = false /\
     arg_clone (mkArgs false false true false true true) = false /\
     arg_extend (mkArgs false false true false true true) = false /\
     arg_external (mkArgs false false true false true true) = false).
Proof.
  apply (main_configure_returns demo_world (mkArgs false false true false true true)
           (mkDisplayList three_demo) None).
  reflexivity.
Defined.

(** [--extend --all --left] with three displays and no stored configuration. *)
Example main_extend_all_left :
  main_configure demo_world (mkArgs false false true false true true)
    (mkDisplayList three_demo)
  = Returns (Run "xrandr --output eDP-1 --primary --auto --output HDMI-1 --auto --left-of eDP-1 --output DP-1 --auto --left-of HDMI-1").
Proof. reflexivity. Qed.

(** ** Status Parser: the displays of a text *)

Lemma parse_display_edid (t : node) (d : Display) :
  parse_display t = Some d -> edid d = "".
Proof.
  unfold parse_display, Display_init. intros H.
  repeat (simplify_option_eq || case_match); done.
Qed.

Lemma parse_connected_edid (line : string) (d : Display) :
  parse_connected line = Some d -> clear_edid d = d.
Proof.
  unfold parse_connected. intros H.
  destruct (Grammar.parse line) as [t|]; [|done]. simpl in H.
  apply parse_display_edid in H. destruct d. simpl in H. by subst.
Qed.

Lemma clear_edid_set_last (ds ds' : list Display) (e : string) :
  set_last_edid ds e = Some ds' -> map clear_edid ds' = map clear_edid ds.
Proof.
  destruct (decide (ds = [])) as [->|Hne]; [done|].
  destruct (set_last_edid_is_Some ds e Hne) as (ds0 & d & -> & Hset).
  rewrite Hset. intros [= <-]. by rewrite !map_app.
Qed.

(** One line adds the display of a connected line to the displays, and
    changes of the others nothing but an EDID; it fails on a connected line
    that is not of the grammar, and on no other line. *)
Lemma parse_line_displays (st : ParseState) (line : string) :
  has_display st ->
  (fun st' => map clear_edid (parsed_displays st')) <$> parse_line st line
  = if is_connected_line line
    then d ← parse_connected line; Some (map clear_edid (parsed_displays st) ++ [d])
    else Some (map clear_edid (parsed_displays st)).
Proof.
  intros Hinv. unfold parse_line, is_connected_line.
  destruct (contains "disconnected" line); [done|].
  destruct (contains "connected" line) eqn:Hc; simpl.
  { destruct (parse_connected line) as [d|] eqn:Hd; [|done]. simpl.
    rewrite map_app. simpl. by rewrite (parse_connected_edid _ _ Hd). }
  destruct (last_connected st && contains "EDID" line) eqn:Hedid.
  { apply andb_true_iff in Hedid as [_ He]. unfold contains in He.
    by destruct (find "EDID" line). }
  destruct (collect_lines st) eqn:Hcollect; [|done].
  destruct (Nat.eqb _ _); [|done].
  destruct (set_last_edid_is_Some (parsed_displays st) (join (edid_buffer st)))
    as (ds & d & Heq & Hset); [apply Hinv; by right|].
  rewrite Hset. simpl. rewrite Heq, !map_app. done.
Qed.

Lemma parse_lines_displays_from (lines : list string) :
  forall st : ParseState,
    has_display st ->
    (fun st' => map clear_edid (parsed_displays st')) <$> parse_lines st lines
    = (fun ds => map clear_edid (parsed_displays st) ++ ds) <$> connected_displays lines.
Proof.
  induction lines as [|line lines IH]; intros st Hinv.
  - simpl. by rewrite app_nil_r.
  - rewrite parse_lines_cons.
    pose proof (parse_line_displays st line Hinv) as Hstep.
    destruct (parse_line st line) as [st1|] eqn:Hline; simpl in *.
    + rewrite (IH st1) by by eapply parse_line_has_display.
      destruct (is_connected_line line).
      * destruct (parse_connected line) as [d|]; [|done]. simpl in *.
        injection Hstep as ->.
        destruct (connected_displays lines) as [ds|]; [|done]. simpl.
        by rewrite <- app_assoc.
      * by injection Hstep as ->.
    + destruct (is_connected_line line); [|done].
      by destruct (parse_connected line).
Qed.

(** The parser returns the displays of the connected lines of the text, in
    the order of the lines and nothing else, each as its line gives it but
    for the EDID; it raises when one of these lines is not of the grammar, and
    in no other case. *)
Theorem parse_connected_displays (output : string) :
  (fun dl => map clear_edid (displays dl)) <$> parse output
  = connected_displays (split_lines output).
Proof.
  unfold parse.
  pose proof (parse_lines_displays_from (split_lines output) initial_state
                initial_state_has_display) as H.
  destruct (parse_lines initial_state (split_lines output)) as [st|]; simpl in *.
  - rewrite H. by destruct (connected_displays _).
  - rewrite H. by destruct (connected_displays _).
Qed.

(** A connected line that is not of the grammar ends the parse: what comes
    before it and after it is lost. *)
Theorem malformed_connected_line_fatal (st0 : ParseState) (pre post : list string)
    (line : string) :
  contains "disconnected" line = false ->
  contains "connected" line = true ->
  parse_connected line = None ->
  parse_lines st0 (pre ++ line :: post) = None.
Proof.
  intros Hd Hc Hp. rewrite parse_lines_app.
  destruct (parse_lines st0 pre) as [st|]; [|done]. simpl.
  rewrite parse_lines_cons. unfold parse_line. by rewrite Hd, Hc, Hp.
Qed.

Lemma malformed_connected_line_fatal_witness :
  parse_lines initial_state ([connected_demo] ++ rotated_demo :: [disconnected_demo])
  = None.
Proof.
  apply (malformed_connected_line_fatal initial_state [connected_demo]
           [disconnected_demo] rotated_demo); reflexivity.
Defined.

(** While the output parsed last is disconnected and no block is being
    collected, a line without the connected marker changes nothing: the EDID
    of a disconnected output is not collected. *)
Theorem disconnected_output_ignored (st : ParseState) (line : string) :
  last_connected st = false ->
  collect_lines st = false ->
  contains "connected" line = false ->
  parse_line st line = Some st.
Proof.
  intros Hlc Hcl Hc. unfold parse_line.
  by rewrite (not_connected_not_disconnected _ Hc), Hc, Hlc, Hcl.
Qed.

Lemma disconnected_output_ignored_witness :
  parse_line initial_state marker_demo = Some initial_state.
Proof.
  apply (disconnected_output_ignored initial_state marker_demo); reflexivity.
Defined.

(** ** The grammar: what an accepted line holds *)

Lemma span_all_chars (p : ascii -> bool) (s : string) :
  all_chars p (fst (Grammar.span p s)) = true.
Proof.
  induction s as [|c s IH]; [done|]. simpl.
  destruct (p c) eqn:Hc; [|done].
  destruct (Grammar.span p s) as [tok rest]. simpl in *. by rewrite Hc, IH.
Qed.

Lemma regexp_inv (p : ascii -> bool) (s t r : string) :
  Grammar.regexp p s = Some (t, r) -> lexeme p t = true.
Proof.
  unfold Grammar.regexp. intros H.
  pose proof (span_all_chars p (Grammar.skip_ws s)) as Hall.
  destruct (Grammar.span p (Grammar.skip_ws s)) as [tok rest].
  destruct tok as [|c tok]; [done|]. by injection H as <- <-.
Qed.

Lemma NUMBER_inv (s t r : string) :
  Grammar.NUMBER s = Some (t, r) -> is_NUMBER t = true.
Proof. apply regexp_inv. Qed.

Lemma TEXT_inv (s t r : string) :
  Grammar.TEXT s = Some (t, r) -> is_TEXT t = true.
Proof. apply regexp_inv. Qed.

Lemma OFFSET_DIRECTION_inv (s d r : string) :
  Grammar.OFFSET_DIRECTION s = Some (d, r) -> is_OFFSET_DIRECTION d = true.
Proof.
  unfold Grammar.OFFSET_DIRECTION. intros H.
  repeat case_match; by simplify_eq.
Qed.

Lemma offset_inv (s r : string) (t : node) :
  Grammar.offset s = Some (t, r) ->
  exists o : Offset, t = offset_tree o /\ is_offset o = true.
Proof.
  unfold Grammar.offset, Grammar.offset_value. intros H.
  destruct (Grammar.OFFSET_DIRECTION s) as [[d r1]|] eqn:Hd; [|done]. simpl in H.
  destruct (Grammar.NUMBER r1) as [[v r2]|] eqn:Hv; [|done]. simpl in H.
  injection H as <- <-. exists (mkOffset d v). split; [done|].
  unfold is_offset. simpl.
  by rewrite (OFFSET_DIRECTION_inv _ _ _ Hd), (NUMBER_inv _ _ _ Hv).
Qed.

Lemma resolution_offset_inv (s r : string) (t : node) :
  Grammar.resolution_offset s = Some (t, r) ->
  exists g : Geometry, t = geometry_tree g /\ is_geometry g = true.
Proof.
  unfold Grammar.resolution_offset, Grammar.pixels, Grammar.screen_offset. intros H.
  destruct (Grammar.NUMBER s) as [[w r1]|] eqn:Hw; [|done]. simpl in H.
  destruct (Grammar.literal "x" r1) as [r2|]; [|done]. simpl in H.
  destruct (Grammar.NUMBER r2) as [[h r3]|] eqn:Hh; [|done]. simpl in H.
  destruct (Grammar.offset r3) as [[x r4]|] eqn:Hx; [|done]. simpl in H.
  destruct (Grammar.offset r4) as [[y r5]|] eqn:Hy; [|done]. simpl in H.
  injection H as <- <-.
  destruct (offset_inv _ _ _ Hx) as (ox & -> & Hox).
  destruct (offset_inv _ _ _ Hy) as (oy & -> & Hoy).
  exists (mkGeometry w h ox oy). split; [done|].
  unfold is_geometry. simpl.
  by rewrite (NUMBER_inv _ _ _ Hw), (NUMBER_inv _ _ _ Hh), Hox, Hoy.
Qed.

Lemma screen_size_inv (s r : string) (t : node) :
  Grammar.screen_size s = Some (t, r) ->
  exists sz : string * string, t = size_tree sz /\ is_size sz = true.
Proof.
  unfold Grammar.screen_size, Grammar.length. intros H.
  destruct (Grammar.NUMBER s) as [[a r1]|] eqn:Ha; [|done]. simpl in H.
  destruct (Grammar.literal "mm" r1) as [r2|]; [|done]. simpl in H.
  destruct (Grammar.literal "x" r2) as [r3|]; [|done]. simpl in H.
  destruct (Grammar.NUMBER r3) as [[b r4]|] eqn:Hb; [|done]. simpl in H.
  destruct (Grammar.literal "mm" r4) as [r5|]; [|done]. simpl in H.
  injection H as <- <-. exists (a, b). split; [done|].
  unfold is_size. simpl.
  by rewrite (NUMBER_inv _ _ _ Ha), (NUMBER_inv _ _ _ Hb).
Qed.

Lemma if_number_inv {A : Type} (rule : string -> option (node * string))
    (f : A -> node) (valid : A -> bool) (s r : string) (ts : list node) :
  (forall s' r' t, rule s' = Some (t, r') -> exists a, t = f a /\ valid a = true) ->
  Grammar.if_number rule s = Some (ts, r) ->
  exists o : option A,
    ts = opt_tree f o /\ match o with Some a => valid a | None => true end = true.
Proof.
  intros Hrule. unfold Grammar.if_number. intros H.
  destruct (Grammar.number_next s).
  - destruct (rule s) as [[t r']|] eqn:Ht; [|done]. simpl in H.
    injection H as <- <-. destruct (Hrule _ _ _ Ht) as (a & -> & Ha).
    by exists (Some a).
  - injection H as <- <-. by exists None.
Qed.

Lemma parse_inv (line : string) (t : node) :
  Grammar.parse line = Some t ->
  exists (output : string) (geometry : option Geometry) (size : option (string * string)),
    t = line_tree output geometry size /\
    is_TEXT output = true /\
    match geometry with Some g => is_geometry g | None => true end = true /\
    match size with Some sz => is_size sz | None => true end = true.
Proof.
  unfold Grammar.parse, Grammar.start, Grammar.output, Grammar.orientation. intros H.
  destruct (Grammar.TEXT line) as [[o r1]|] eqn:Ho; [|done]. simpl in H.
  destruct (Grammar.literal "connected" r1) as [r2|]; [|done]. simpl in H.
  destruct (Grammar.if_number Grammar.resolution_offset _) as [[res r4]|] eqn:Hres;
    [|done]. simpl in H.
  destruct (Grammar.literal "(" r4) as [r5|]; [|done]. simpl in H.
  destruct (Grammar.word r5) as [r6|]; [|done]. simpl in H.
  destruct (Grammar.literal ")" _) as [r7|]; [|done]. simpl in H.
  destruct (Grammar.if_number Grammar.screen_size r7) as [[size r8]|] eqn:Hsize;
    [|done]. simpl in H.
  destruct (Grammar.skip_ws r8); [|done]. injection H as <-.
  destruct (if_number_inv _ geometry_tree is_geometry _ _ _ resolution_offset_inv Hres)
    as (g & -> & Hg).
  destruct (if_number_inv _ size_tree is_size _ _ _ screen_size_inv Hsize)
    as (sz & -> & Hsz).
  exists o, g, sz. split; [done|]. split; [|done].
  by apply (TEXT_inv _ _ _ Ho).
Qed.

(** Every display the parser makes of a line has a name of letters, digits
    and hyphens, not empty, and no EDID yet; it has a resolution ["WxH"] of
    two numbers and two offsets, each a sign and a number, or none of the
    three. *)
Theorem parse_connected_shape (line : string) (d : Display) :
  parse_connected line = Some d ->
  exists (output : string) (geometry : option Geometry),
    d = display_of output geometry /\
    is_TEXT output = true /\
    match geometry with Some g => is_geometry g | None => true end = true.
Proof.
  unfold parse_connected. intros H.
  destruct (Grammar.parse line) as [t|] eqn:Ht; [|done]. simpl in H.
  destruct (parse_inv _ _ Ht) as (o & g & sz & -> & Ho & Hg & _).
  rewrite parse_display_line_tree in H. injection H as <-.
  by exists o, g.
Qed.

Lemma parse_connected_shape_witness :
  exists (output : string) (geometry : option Geometry),
    active "eDP-1" = display_of output geometry /\
    is_TEXT output = true /\
    match geometry with Some g => is_geometry g | None => true end = true.
Proof.
  apply (parse_connected_shape connected_demo (active "eDP-1")). reflexivity.
Defined.

(** ** Status Parser: a block left open *)

(** An EDID block that no line at the indentation of its marker has ended
    is still open when the next connected line comes: the line after that
    display, when it is at the indentation of the marker, makes the block the
    [edid] of the new display, and the displays parsed before keep theirs. *)
Theorem open_block_given_to_next_display (pre : list string) (st : ParseState)
    (marker : string) (i : nat) (block : list string)
    (output : string) (primary : bool) (geometry : option Geometry)
    (flags : list string) (size : option (string * string)) (stop : string) :
  parse_lines initial_state pre = Some st ->
  last_connected st = true ->
  contains "connected" marker = false ->
  find "EDID" marker = Some i ->
  Forall (collected_line i) block ->
  well_formed output geometry flags size = true ->
  contains "disconnected" (connected_line output primary geometry flags size) = false ->
  stop_line i stop ->
  exists (st' : ParseState) (d' : Display),
    parse_lines initial_state
      (pre ++ marker :: block
           ++ [connected_line output primary geometry flags size; stop]) = Some st' /\
    parsed_displays st' = parsed_displays st ++ [d'] /\
    name d' = output /\
    edid d' = join (map strip block) /\
    same_but_edid (display_of output geometry) d'.
Proof.
  intros Hpre Hlc Hnc Hfind Hblock Hwf Hdis (Hsc & Hse & Hsi).
  eexists. exists (set_edid (display_of output geometry) (join (map strip block))).
  split.
  - rewrite parse_lines_app, Hpre. simpl.
    rewrite app_comm_cons, parse_lines_app, (parse_lines_block _ _ i) by done. simpl.
    rewrite parse_lines_cons, parse_line_connected_line by done. simpl.
    rewrite parse_lines_cons, parse_line_stop by done. simpl. reflexivity.
  - done.
Qed.

Lemma open_block_given_to_next_display_witness :
  exists (st' : ParseState) (d' : Display),
    parse_lines initial_state
      ([connected_demo] ++ marker_demo :: [hex_demo]
         ++ [connected_line "HDMI-1" false None all_flags None; property_demo])
    = Some st' /\
    parsed_displays st' = parsed_displays connected_state ++ [d'] /\
    name d' = "HDMI-1" /\
    edid d' = "00ffffffffffff00" /\
    same_but_edid (display_of "HDMI-1" None) d'.
Proof.
  apply (open_block_given_to_next_display [connected_demo] connected_state marker_demo
           1%nat [hex_demo] "HDMI-1" false None all_flags None property_demo).
  - reflexivity.
  - reflexivity.
  - reflexivity.
  - reflexivity.
  - repeat (constructor; [split; [reflexivity|split; [reflexivity|by vm_compute]]|]).
    constructor.
  - reflexivity.
  - reflexivity.
  - split; [reflexivity|split; reflexivity].
Defined.

(** The text of that run: the EDID of eDP-1 is listed under HDMI-1. *)
Example parse_open_block :
  parse (connected_demo +:+ String newline marker_demo +:+ String newline hex_demo
         +:+ String newline "HDMI-1 connected (normal left inverted right x axis y)"
         +:+ String newline property_demo)
  = Some (mkDisplayList [active "eDP-1";
                         mkDisplay "HDMI-1" None None None "00ffffffffffff00"]).
Proof. reflexivity. Qed.
